(** * inkra: the transcript analyzer and the visualizer launcher

    A shallow embedding of the two scripts of [blender/scripts] that carry
    logic of their own,

    - [analyze_techniques.py]: keyword counting and step extraction over
      transcript texts, and the Markdown report built from them;
    - [master_visualizer_generator.py]: the registry of visualizers, the
      lookup of the Blender executable and the launch of one visualizer;

    followed by the properties their specification states about them.

    Python values are embedded as follows.  A [str] of the analyzer is a
    list of Unicode code points ([N]), because the regular expressions of the
    script are compiled without [re.ASCII]: case folding and the classes
    [\s] and [\d] range over all of Unicode.  The strings of the launcher are
    never inspected character by character and are kept as [string].
    Dictionaries are association lists in insertion order, which is the order
    Python iterates them in.  Effects (printing, reading and writing files,
    running a process) are threaded explicitly. *)

From Stdlib Require Import List Arith NArith ZArith Bool Lia.
From Stdlib Require Import String Ascii DecimalString.
From Stdlib Require Import Permutation Sorted.
Import ListNotations.

Set Implicit Arguments.

(* ================================================================== *)
(** * Python strings as lists of code points *)
(* ================================================================== *)

Module PyStr.

Definition char := N.
Definition str := list char.

(** A literal of the source, written as a Rocq string.  Every literal the
    analyzer uses is ASCII, so bytes and code points coincide. *)
Definition lit (s : string) : str :=
  map N_of_ascii (list_ascii_of_string s).

Definition chr (a : ascii) : char := N_of_ascii a.

Fixpoint eqb (a b : str) : bool :=
  match a, b with
  | [], [] => true
  | x :: a', y :: b' => N.eqb x y && eqb a' b'
  | _, _ => false
  end.

(** [str.isspace] for one character, which is also the class [\s] of a
    [str] pattern: the characters CPython's [_PyUnicode_IsWhitespace] lists. *)
Definition isspace (c : char) : bool :=
  ((9 <=? c) && (c <=? 13) || (28 <=? c) && (c <=? 32)
   || (c =? 133) || (c =? 160) || (c =? 5760)
   || (8192 <=? c) && (c <=? 8202)
   || (c =? 8232) || (c =? 8233) || (c =? 8239) || (c =? 8287)
   || (c =? 12288))%N.

Definition is_upper_ascii (c : char) : bool := ((65 <=? c) && (c <=? 90))%N.
Definition is_lower_ascii (c : char) : bool := ((97 <=? c) && (c <=? 122))%N.

(** Lower-casing as [re.IGNORECASE] applies it to a character of the text
    that is compared with an ASCII character of the pattern: the 26 capital
    letters, and the four characters outside ASCII that fold onto ASCII
    letters (U+0130 and U+0131 onto i, U+017F onto s, U+212A onto k). *)
Definition casefold (c : char) : char :=
  (if is_upper_ascii c then c + 32
   else if (c =? 304) || (c =? 305) then 105
   else if c =? 383 then 115
   else if c =? 8490 then 107
   else c)%N.

(** [str.split()] with no argument: the maximal runs of characters that are
    not whitespace.  [cur] is the word being read, reversed. *)
Fixpoint split_ws (s : str) (cur : str) : list str :=
  match s with
  | [] => match cur with [] => [] | _ => [rev cur] end
  | c :: s' =>
      if isspace c
      then match cur with
           | [] => split_ws s' []
           | _ => rev cur :: split_ws s' []
           end
      else split_ws s' (c :: cur)
  end.

Definition split (s : str) : list str := split_ws s [].

Fixpoint lstrip (s : str) : str :=
  match s with
  | c :: s' => if isspace c then lstrip s' else s
  | [] => []
  end.

(** [str.strip()] with no argument. *)
Definition strip (s : str) : str := rev (lstrip (rev (lstrip s))).

Fixpoint starts_with (p s : str) : bool :=
  match p, s with
  | [], _ => true
  | x :: p', y :: s' => N.eqb x y && starts_with p' s'
  | _ :: _, [] => false
  end.

(** [s.replace(old, new)] for a non-empty [old]: occurrences are replaced
    from the left and do not overlap.  [skip] counts the characters of an
    occurrence that are still to be passed over. *)
Fixpoint replace_from (old new s : str) (skip : nat) : str :=
  match s with
  | [] => []
  | c :: s' =>
      match skip with
      | S n => replace_from old new s' n
      | O =>
          if starts_with old s
          then new ++ replace_from old new s' (List.length old - 1)
          else c :: replace_from old new s' 0
      end
  end.

Definition replace (old new s : str) : str := replace_from old new s 0.

(** [str.title()] on the ASCII letters: a letter that follows a letter is
    lower-cased, any other letter is upper-cased.  The script applies it to
    the keys of its keyword table only, which are ASCII. *)
Fixpoint title_from (s : str) (after_letter : bool) : str :=
  match s with
  | [] => []
  | c :: s' =>
      if is_upper_ascii c
      then (if after_letter then (c + 32)%N else c) :: title_from s' true
      else if is_lower_ascii c
      then (if after_letter then c else (c - 32)%N) :: title_from s' true
      else c :: title_from s' false
  end.

Definition title (s : str) : str := title_from s false.

(** [os.path.basename]: what follows the last slash. *)
Fixpoint basename_from (s : str) (cur : str) : str :=
  match s with
  | [] => rev cur
  | c :: s' => if (c =? 47)%N then basename_from s' [] else basename_from s' (c :: cur)
  end.

Definition basename (s : str) : str := basename_from s [].

(** [str(n)] of a non-negative integer, as an f-string formats it. *)
Definition of_nat (n : nat) : str := lit (NilZero.string_of_uint (Nat.to_uint n)).

End PyStr.

(* ================================================================== *)
(** * The regular expressions of module [re] that the analyzer uses *)
(* ================================================================== *)

Module Re.
Import PyStr.

(** A character set: what one position of a pattern accepts. *)
Inductive cset : Type :=
| CChar (c : char)            (* a literal character, under IGNORECASE *)
| CSpace                      (* \s *)
| CDigit                      (* \d *)
| CUnion (a b : cset)         (* [ab] *)
| CNot (a : cset).            (* [^a] *)

(** The patterns of the script, all of this shape: sequences and
    alternatives of single characters, greedy repetitions of a single
    character set ([x*], [x+], [x?]) and one capturing group. *)
Inductive regex : Type :=
| REps
| RSet (cs : cset)
| RRep (cs : cset) (lo : nat) (hi : option nat)
| RSeq (r1 r2 : regex)
| RAlt (r1 r2 : regex)
| RGroup (r : regex).

Definition star (cs : cset) : regex := RRep cs 0 None.
Definition plus (cs : cset) : regex := RRep cs 1 None.
Definition opt (cs : cset) : regex := RRep cs 0 (Some 1).

(** A run of literal characters. *)
Definition word (s : string) : regex :=
  fold_right (fun a r => RSeq (RSet (CChar (chr a))) r) REps (list_ascii_of_string s).

Definition cat (rs : list regex) : regex := fold_right RSeq REps rs.

Fixpoint has_group (r : regex) : bool :=
  match r with
  | RGroup _ => true
  | RSeq a b | RAlt a b => has_group a || has_group b
  | _ => false
  end.

Section Matching.

(** The decimal digits outside ASCII (category Nd of the Unicode database
    that the interpreter was built with): a table of the interpreter, no part
    of the script, so the development is parametric in it. *)
Variable unicode_decimal : char -> bool.

Definition isdecimal (c : char) : bool :=
  ((48 <=? c) && (c <=? 57))%N || unicode_decimal c.

Fixpoint cset_mem (cs : cset) (c : char) : bool :=
  match cs with
  | CChar p => N.eqb (casefold c) (casefold p)
  | CSpace => isspace c
  | CDigit => isdecimal c
  | CUnion a b => cset_mem a c || cset_mem b c
  | CNot a => negb (cset_mem a c)
  end.

(** The matcher is the backtracking one of [re], in continuation-passing
    style: [k] receives the rest of the text and the text of the group, and
    answers [None] to ask for the next alternative. *)
Definition cont (A : Type) : Type := str -> option str -> option A.

Definition may_repeat (hi : option nat) : bool :=
  match hi with Some O => false | _ => true end.

(** A greedy repetition of a one-character item takes as many characters as
    it can and gives them back one at a time. *)
Fixpoint rep_match (A : Type) (cs : cset) (lo : nat) (hi : option nat)
    (s : str) (cap : option str) (k : cont A) {struct s} : option A :=
  match s with
  | c :: s' =>
      if cset_mem cs c && may_repeat hi
      then match rep_match cs (pred lo) (option_map pred hi) s' cap k with
           | Some x => Some x
           | None => match lo with O => k s cap | S _ => None end
           end
      else match lo with O => k s cap | S _ => None end
  | [] => match lo with O => k s cap | S _ => None end
  end.

Fixpoint rmatch (A : Type) (r : regex) (s : str) (cap : option str)
    (k : cont A) {struct r} : option A :=
  match r with
  | REps => k s cap
  | RSet cs =>
      match s with
      | c :: s' => if cset_mem cs c then k s' cap else None
      | [] => None
      end
  | RRep cs lo hi => rep_match cs lo hi s cap k
  | RSeq r1 r2 => rmatch r1 s cap (fun s1 cap1 => rmatch r2 s1 cap1 k)
  | RAlt r1 r2 =>
      match rmatch r1 s cap k with
      | Some x => Some x
      | None => rmatch r2 s cap k
      end
  | RGroup r1 =>
      rmatch r1 s cap
        (fun s1 _ => k s1 (Some (firstn (List.length s - List.length s1) s)))
  end.

(** One attempt at the start of [s]: the number of characters matched and
    the text of the group.  With [must_advance] an empty match is refused
    and the matcher backtracks past it. *)
Definition match_at (r : regex) (s : str) (must_advance : bool)
  : option (nat * option str) :=
  rmatch r s None
    (fun s1 cap =>
       if must_advance && (List.length s1 =? List.length s)
       then None
       else Some (List.length s - List.length s1, cap)).

(** What [findall] reports for one match: the group if the pattern has
    one, the whole match otherwise. *)
Definition item (r : regex) (s : str) (m : nat * option str) : str :=
  if has_group r
  then match snd m with Some g => g | None => [] end
  else firstn (fst m) s.

(** [re.findall(r, text, re.IGNORECASE)].  The text is scanned from the
    left; after a match the scan resumes where it ended, and after an empty
    match a second, non-empty one is looked for at the same place.  [skip]
    counts the characters of the last match still to be passed over. *)
Fixpoint scan (r : regex) (s : str) (skip : nat) : list str :=
  match skip with
  | S n => match s with [] => [] | _ :: s' => scan r s' n end
  | O =>
      let resume n := match s with [] => [] | _ :: s' => scan r s' n end in
      match match_at r s false with
      | Some (O, cap) =>
          item r s (O, cap) ::
          match match_at r s true with
          | Some (n, cap') => item r s (n, cap') :: resume (n - 1)
          | None => resume 0
          end
      | Some (S n, cap) => item r s (S n, cap) :: resume n
      | None => resume 0
      end
  end.

Definition findall (r : regex) (text : str) : list str := scan r text 0.

(** ** What a pattern means *)

(** The words a pattern matches in full, letter case ignored. *)
Inductive lang : regex -> str -> Prop :=
| lang_eps : lang REps []
| lang_set cs c : cset_mem cs c = true -> lang (RSet cs) [c]
| lang_rep cs lo hi w :
    Forall (fun c => cset_mem cs c = true) w ->
    lo <= List.length w ->
    (forall h, hi = Some h -> List.length w <= h) ->
    lang (RRep cs lo hi) w
| lang_seq r1 r2 w1 w2 : lang r1 w1 -> lang r2 w2 -> lang (RSeq r1 r2) (w1 ++ w2)
| lang_alt_l r1 r2 w : lang r1 w -> lang (RAlt r1 r2) w
| lang_alt_r r1 r2 w : lang r2 w -> lang (RAlt r1 r2) w
| lang_group r w : lang r w -> lang (RGroup r) w.

(** The occurrences of a pattern in a text, read from the left: at each
    place either no word of the pattern starts, and the place is passed, or
    one is taken and the reading goes on after it, so that no two
    occurrences overlap. *)
Inductive found (r : regex) : str -> list str -> Prop :=
| found_end : found r [] []
| found_pass c s ms :
    (forall w rest, c :: s = w ++ rest -> ~ lang r w) ->
    found r s ms ->
    found r (c :: s) ms
| found_take w s ms :
    lang r w -> w <> [] ->
    found r s ms ->
    found r (w ++ s) (w :: ms).

End Matching.

(** The patterns inside the groups of a pattern, and whether every match
    of the pattern goes through one of its groups. *)
Fixpoint groups (r : regex) : list regex :=
  match r with
  | RGroup g => [g]
  | RSeq a b | RAlt a b => groups a ++ groups b
  | _ => []
  end.

Fixpoint always_groups (r : regex) : bool :=
  match r with
  | RGroup _ => true
  | RSeq a b => always_groups a || always_groups b
  | RAlt a b => always_groups a && always_groups b
  | _ => false
  end.

(** Whether a pattern can match the empty word. *)
Fixpoint nullable (r : regex) : bool :=
  match r with
  | REps => true
  | RSet _ => false
  | RRep _ lo _ => lo =? 0
  | RSeq a b => nullable a && nullable b
  | RAlt a b => nullable a || nullable b
  | RGroup a => nullable a
  end.

End Re.

(* ================================================================== *)
(** * Counting occurrences without running the matcher *)
(* ================================================================== *)

(** A pattern may match several words at one place of a text (with and
    without a last optional letter), and the occurrences that follow depend
    on which is taken.  This module decides, for a pattern of letters and
    blanks, that the choice never changes the number of occurrences: the
    words matched at one place differ by one last character at most, and
    that character starts no word of the pattern.  It reads the pattern as
    an automaton over classes of characters, by partial derivatives. *)

Module Counting.
Import PyStr Re.

(** The classes of characters that patterns of letters and blanks tell
    apart. *)
Inductive sym : Type :=
| SLetter (p : char)
| SSpace
| SOther.

Definition class (c : char) : sym :=
  if isspace c then SSpace
  else if is_lower_ascii (casefold c) then SLetter (casefold c)
  else SOther.

Definition alphabet : list sym :=
  map (fun i => SLetter (97 + N.of_nat i)%N) (seq 0 26) ++ [SSpace; SOther].

(** The character sets read here: a lower-case letter, or [\s]. *)
Definition plain_cset (cs : cset) : bool :=
  match cs with
  | CChar p => is_lower_ascii p
  | CSpace => true
  | _ => false
  end.

Definition cset_sym (cs : cset) (x : sym) : bool :=
  match cs, x with
  | CChar p, SLetter q => N.eqb q p
  | CSpace, SSpace => true
  | _, _ => false
  end.

Fixpoint plain (r : regex) : bool :=
  match r with
  | REps => true
  | RSet cs => plain_cset cs
  | RRep cs _ _ => plain_cset cs
  | RSeq a b | RAlt a b => plain a && plain b
  | RGroup _ => false
  end.

(** The partial derivatives of a pattern: what may remain to be matched
    once a character of class [x] was read. *)
Fixpoint pd (x : sym) (r : regex) : list regex :=
  match r with
  | REps => []
  | RSet cs => if cset_sym cs x then [REps] else []
  | RRep cs lo hi =>
      if cset_sym cs x && may_repeat hi
      then [RRep cs (pred lo) (option_map pred hi)]
      else []
  | RSeq a b =>
      map (fun a' => RSeq a' b) (pd x a) ++ (if nullable a then pd x b else [])
  | RAlt a b => pd x a ++ pd x b
  | RGroup a => pd x a
  end.

(** A state is the list of what may remain; a step reads one character. *)
Definition step (x : sym) (d : list regex) : list regex := flat_map (pd x) d.

Definition run (d : list regex) (w : str) : list regex :=
  fold_left (fun d c => step (class c) d) w d.

Definition accepting (d : list regex) : bool := existsb nullable d.

Definition cset_eqb (a b : cset) : bool :=
  match a, b with
  | CChar p, CChar q => N.eqb p q
  | CSpace, CSpace => true
  | _, _ => false
  end.

Definition bound_eqb (a b : option nat) : bool :=
  match a, b with
  | Some m, Some n => m =? n
  | None, None => true
  | _, _ => false
  end.

Fixpoint regex_eqb (a b : regex) : bool :=
  match a, b with
  | REps, REps => true
  | RSet x, RSet y => cset_eqb x y
  | RRep x lo hi, RRep y lo' hi' => cset_eqb x y && (lo =? lo') && bound_eqb hi hi'
  | RSeq a1 a2, RSeq b1 b2 => regex_eqb a1 b1 && regex_eqb a2 b2
  | RAlt a1 a2, RAlt b1 b2 => regex_eqb a1 b1 && regex_eqb a2 b2
  | _, _ => false
  end.

Definition inclb (d d' : list regex) : bool :=
  forallb (fun r => existsb (regex_eqb r) d') d.

Definition covered (d : list regex) (states : list (list regex)) : bool :=
  existsb (inclb d) states.

Definition is_nil (A : Type) (l : list A) : bool :=
  match l with [] => true | _ :: _ => false end.

(** The states reached from [todo], breadth first. *)
Fixpoint explore (fuel : nat) (todo seen : list (list regex)) : list (list regex) :=
  match fuel with
  | O => seen
  | S fuel' =>
      match todo with
      | [] => seen
      | d :: rest =>
          if covered d seen then explore fuel' rest seen
          else explore fuel' (rest ++ map (fun x => step x d) alphabet) (d :: seen)
      end
  end.

(** After a word of the pattern, one more character at most can be read
    into a word of the pattern, and then it starts no word. *)
Definition settled (r : regex) (d : list regex) : bool :=
  negb (accepting d)
  || forallb
       (fun x =>
          let d' := step x d in
          forallb (fun y => is_nil (step y d')) alphabet
          && (negb (accepting d') || is_nil (pd x r)))
       alphabet.

(** [states] holds the start, is closed under steps, and is settled. *)
Definition check (r : regex) (states : list (list regex)) : bool :=
  plain r
  && covered [r] states
  && forallb (fun d => forallb (fun x => covered (step x d) states) alphabet) states
  && forallb (settled r) states.

Definition unambiguous (r : regex) : bool := check r (explore 4000 [[r]] []).

Definition all_plain (d : list regex) : Prop :=
  forall r, In r d -> plain r = true.

End Counting.

(* ================================================================== *)
(** * analyze_techniques.py *)
(* ================================================================== *)

Module AnalyzeTechniques.
Import PyStr Re.

Definition nl : str := [10%N].

(** ** Dictionaries and sorting *)

(** [d[k] += c] on a [defaultdict(int)]: a new key goes last. *)
Fixpoint add_count (d : list (str * nat)) (k : str) (c : nat) : list (str * nat) :=
  match d with
  | [] => [(k, 0 + c)]
  | (k', v) :: d' =>
      if PyStr.eqb k' k then (k', v + c) :: d' else (k', v) :: add_count d' k c
  end.

(** [sorted(l, key=key, reverse=True)], and [l.sort(key=key, reverse=True)]:
    descending keys, elements of equal key in their original order.  A stable
    sort has one possible result, computed here by insertion. *)
Fixpoint insert_desc (A : Type) (key : A -> nat) (x : A) (l : list A) : list A :=
  match l with
  | [] => [x]
  | y :: l' => if key x <? key y then y :: insert_desc key x l' else x :: l
  end.

Definition sorted_desc (A : Type) (key : A -> nat) (l : list A) : list A :=
  fold_right (insert_desc key) [] l.


(** ** The two extractors *)

Definition ws : regex := star CSpace.
Definition opt_s : regex := opt (CChar (chr "s")).

(** The table [patterns] of [extract_techniques], in the order it is
    written, which is the order [patterns.items()] yields. *)
Definition patterns : list (str * regex) :=
  [ (lit "geometry_nodes",    cat [word "geometry"; ws; word "node"; opt_s]);
    (lit "sound_input",       cat [word "sound"; ws; word "input"]);
    (lit "bake_sound",        cat [word "bake"; ws; word "sound"]);
    (lit "spectral_analysis", RAlt (word "spectral") (RAlt (word "frequency") (word "spectrum")));
    (lit "audio_animation",   cat [word "audio"; ws; word "animation"]);
    (lit "drivers",           cat [word "driver"; opt_s]);
    (lit "modifiers",         cat [word "modifier"; opt_s]);
    (lit "particle_systems",  cat [word "particle"; opt_s; ws; word "system"; opt_s]);
    (lit "material_nodes",    cat [word "material"; ws; word "node"; opt_s]);
    (lit "vertex_groups",     cat [word "vertex"; ws; word "group"; opt_s]);
    (lit "curve_objects",     cat [word "curve"; opt_s; ws; word "object"; opt_s]);
    (lit "displacement",      word "displacement");
    (lit "scale_animation",   cat [word "scale"; ws; word "animation"]);
    (lit "emission_shader",   cat [word "emission"; ws; word "shader"]);
    (lit "wave_texture",      cat [word "wave"; ws; word "texture"]);
    (lit "noise_texture",     cat [word "noise"; ws; word "texture"]);
    (lit "mix_shader",        cat [word "mix"; ws; word "shader"]);
    (lit "add_shader",        cat [word "add"; ws; word "shader"]) ].

Definition comma_or_space : cset := CUnion (CChar (chr ",")) CSpace.
Definition not_dot : cset := CNot (CChar (chr ".")).
Definition colon_or_dash : cset := CUnion (CChar (chr ":")) (CChar (chr "-")).

(** A lead-in followed by [[,\s]+([^\.]+)]. *)
Definition lead_in (r : regex) : regex :=
  cat [r; plus comma_or_space; RGroup (plus not_dot)].

(** The list [step_patterns] of [extract_steps]. *)
Definition step_patterns : list regex :=
  [ cat [word "step"; ws; plus CDigit; opt colon_or_dash; ws; RGroup (plus not_dot)];
    lead_in (word "first");
    lead_in (word "next");
    lead_in (word "then");
    lead_in (word "finally");
    lead_in (word "now");
    lead_in (cat [word "after"; ws; word "that"]) ].

(** One transcript's entry of [tutorial_summaries]. *)
Record summary : Type := Summary {
  title : str;
  techniques : list (str * nat);
  key_steps : list str;
  word_count : nat
}.

(** What escapes from [main]: [open] failed on a transcript. *)
Inductive exn : Type :=
| OpenFailed (path : str).

(** What [main] leaves behind: the lines printed and the files written. *)
Record world : Type := World {
  console : list str;
  written : list (str * str)
}.

(** The script's inputs: what [glob.glob] returns, and for each path the
    text [open(...).read()] yields, or [None] when the file is missing or
    cannot be read. *)
Record env : Type := Env {
  transcript_files : list str;
  read_text : str -> option str
}.

(** Statements of the script: they change the world and return a value or
    raise. *)
Definition M (A : Type) : Type := world -> (A + exn) * world.

Definition ret (A : Type) (a : A) : M A := fun w => (inl a, w).

Definition bind (A B : Type) (m : M A) (f : A -> M B) : M B :=
  fun w => match m w with
           | (inl a, w') => f a w'
           | (inr e, w') => (inr e, w')
           end.

Definition print (line : str) : M unit :=
  fun w => (inl tt, World (console w ++ [line]) (written w)).

Definition open_read (e : env) (path : str) : M str :=
  fun w => match read_text e path with
           | Some text => (inl text, w)
           | None => (inr (OpenFailed path), w)
           end.

Definition open_write (path content : str) : M unit :=
  fun w => (inl tt, World (console w) (written w ++ [(path, content)])).

Notation "x <- m ;; f" := (bind m (fun x => f))
  (at level 61, m at next level, right associativity).
Notation "m ;;; f" := (bind m (fun _ => f))
  (at level 61, right associativity).

Section Analyzer.

Variable unicode_decimal : char -> bool.

Definition extract_techniques (text : str) : list (str * nat) :=
  fold_left
    (fun techniques (entry : str * regex) =>
       let (technique, pattern) := entry in
       let matches := findall unicode_decimal pattern text in
       match matches with
       | [] => techniques
       | _ :: _ => techniques ++ [(technique, List.length matches)]
       end)
    patterns [].

Definition extract_steps (text : str) : list str :=
  let steps :=
    fold_left
      (fun steps pattern => steps ++ findall unicode_decimal pattern text)
      step_patterns [] in
  firstn 10 steps.

(** The body of the loop over the transcripts, after the file was read. *)
Definition summarize (transcript_file text : str) : summary :=
  let filename := replace (lit "_transcript.txt") [] (basename transcript_file) in
  let techniques := extract_techniques text in
  let steps := extract_steps text in
  Summary filename techniques (firstn 5 steps) (List.length (split text)).

Definition count_all (all_techniques : list (str * nat))
    (techniques : list (str * nat)) : list (str * nat) :=
  fold_left (fun d (tc : str * nat) => add_count d (fst tc) (snd tc))
    techniques all_techniques.

Fixpoint analyze (e : env) (files : list str)
    (all_techniques : list (str * nat)) (tutorial_summaries : list summary)
  : M (list (str * nat) * list summary) :=
  match files with
  | [] => ret (all_techniques, tutorial_summaries)
  | transcript_file :: rest =>
      print (lit "Analyzing: " ++ transcript_file) ;;;
      text <- open_read e transcript_file ;;
      let s := summarize transcript_file text in
      analyze e rest (count_all all_techniques (techniques s))
        (tutorial_summaries ++ [s])
  end.

Definition pretty (technique : str) : str :=
  PyStr.title (replace (lit "_") (lit " ") technique).

Definition technique_line (tc : str * nat) : str :=
  lit "- **" ++ pretty (fst tc) ++ lit "**: " ++ of_nat (snd tc)
  ++ lit " mentions" ++ nl.

Definition key_technique_line (tc : str * nat) : str :=
  lit "- " ++ pretty (fst tc) ++ lit ": " ++ of_nat (snd tc) ++ lit "x" ++ nl.

(** [enumerate(steps, i)] rendered line by line. *)
Fixpoint key_step_lines (i : nat) (steps : list str) : str :=
  match steps with
  | [] => []
  | step :: rest =>
      let step := firstn 100 (strip step) in
      of_nat i ++ lit ". " ++ step ++ lit "..." ++ nl
      ++ key_step_lines (S i) rest
  end.

Definition summary_block (s : summary) : str :=
  lit "### " ++ title s ++ nl
  ++ lit "**Length**: " ++ of_nat (word_count s) ++ lit " words" ++ nl ++ nl
  ++ match techniques s with
     | [] => []
     | _ :: _ =>
         lit "**Key Techniques**:" ++ nl
         ++ List.concat (map key_technique_line (techniques s)) ++ nl
     end
  ++ match key_steps s with
     | [] => []
     | _ :: _ => lit "**Key Steps**:" ++ nl ++ key_step_lines 1 (key_steps s)
     end
  ++ nl ++ lit "---" ++ nl ++ nl.

Definition report_header : str :=
  lit "# Blender Audio Visualizer Techniques Analysis" ++ nl ++ nl
  ++ lit "## Most Common Techniques (across all tutorials)" ++ nl.

Definition summaries_header : str :=
  nl ++ lit "## Tutorial Summaries" ++ nl ++ nl.

(** The text of the report, from the two lists in the order they are
    listed. *)
Definition render (sorted_techniques : list (str * nat))
    (tutorial_summaries : list summary) : str :=
  report_header
  ++ List.concat (map technique_line sorted_techniques)
  ++ summaries_header
  ++ List.concat (map summary_block tutorial_summaries).

Definition report_path : str := lit "blender/techniques_analysis.md".

Definition most_common (sorted_techniques : list (str * nat)) : str :=
  match sorted_techniques with
  | (technique, _) :: _ => technique
  | [] => lit "None"
  end.

Definition main (e : env) : M unit :=
  r <- analyze e (transcript_files e) [] [] ;;
  let (all_techniques, tutorial_summaries) := r in
  let sorted_techniques := sorted_desc snd all_techniques in
  let tutorial_summaries := sorted_desc word_count tutorial_summaries in
  open_write report_path (render sorted_techniques tutorial_summaries) ;;;
  print (nl ++ lit "Analysis complete! Report saved to blender/techniques_analysis.md") ;;;
  print (lit "Total tutorials analyzed: " ++ of_nat (List.length tutorial_summaries)) ;;;
  print (lit "Most common technique: " ++ most_common sorted_techniques).

(** A run of the script from a blank console. *)
Definition run_main (e : env) : (unit + exn) * world := main e (World [] []).

(** ** Notions the properties are stated with *)

(** How many times a pattern occurs in a text: the matches found from the
    left, none overlapping another, letter case ignored. *)
Definition occurrences (pattern : regex) (text : str) : nat :=
  List.length (findall unicode_decimal pattern text).

(** What one entry of [patterns] adds to the result of
    [extract_techniques]. *)
Definition technique_hit (text : str) (entry : str * regex) : list (str * nat) :=
  match findall unicode_decimal (snd entry) text with
  | [] => []
  | (_ :: _) as matches => [(fst entry, List.length matches)]
  end.

(** The example text of the specification. *)
Definition sound_text : str :=
  lit "First, add a Sound input. Then bake sound into an F-curve.".

(** The text of a transcript that can be read. *)
Definition content (e : env) (path : str) : str :=
  match read_text e path with Some text => text | None => [] end.


(** The summaries of all transcripts, in the order of the files, and the
    counts summed over them. *)
Definition summaries (e : env) : list summary :=
  map (fun path => summarize path (content e path)) (transcript_files e).





End Analyzer.

(** ** Concrete inputs the properties are exercised on *)

(** A table of digits: none outside ASCII. *)
Definition ascii_digits_only (c : char) : bool := false.

Definition plain_text : str := lit "Just a plain sentence.".

Definition nodes_text : str :=
  lit "Add a Geometry Node tree, then open the GEOMETRY  NODES editor.".

Definition path_a : str := lit "blender/tutorials/a_transcript.txt".
Definition path_b : str := lit "blender/tutorials/b_transcript.txt".



(** Two transcripts, the second missing. *)
Definition broken_batch : env :=
  Env [path_a; path_b]
    (fun p => if PyStr.eqb p path_a then Some sound_text else None).

End AnalyzeTechniques.

(* ================================================================== *)
(** * master_visualizer_generator.py *)
(* ================================================================== *)

Module MasterVisualizer.

Local Open Scope string_scope.

Definition newline : string := String "010"%char EmptyString.
Definition quote : string := String "034"%char EmptyString.

Definition str_of_nat (n : nat) : string := NilZero.string_of_uint (Nat.to_uint n).

(** ** The registry *)

Record visualizer : Type := Visualizer {
  name : string;
  description : string;
  script : string
}.

Definition VISUALIZERS : list (string * visualizer) :=
  [ ("geometry_nodes_waveform",
     Visualizer "Advanced Geometry Nodes Waveform"
       "Complex waveform using procedural geometry nodes with particle systems"
       "geometry_nodes_waveform.py");
    ("fluid_audio",
     Visualizer "Fluid Simulation Audio Reactive"
       "Ocean-like fluid simulation that responds to audio frequencies"
       "fluid_audio_visualizer.py");
    ("procedural_space",
     Visualizer "Procedural Space Visualizer"
       "Cosmic environment with stars, nebulae, and audio-reactive planets"
       "procedural_space_visualizer.py");
    ("organic_growth",
     Visualizer "Organic Growth Visualizer"
       "Plant-like growth patterns with L-systems and procedural animation"
       "organic_growth_visualizer.py");
    ("crystalline_resonance",
     Visualizer "Crystalline Resonance Visualizer"
       "Fractal crystals that shatter and reform with audio resonance"
       "crystalline_resonance_visualizer.py");
    ("quantum_interference",
     Visualizer "Quantum Interference Visualizer"
       "Wave interference patterns with probability clouds and dimensional rifts"
       "quantum_interference_visualizer.py") ].

Definition AUDIO_FILES : list string :=
  [ "/Users/magnusfremont/Desktop/VibeWriter/audio_remaster/output/remastered_final.m4a";
    "/Users/magnusfremont/Desktop/VibeWriter/audio_remaster/output/remastered_adaptive.m4a";
    "/Users/magnusfremont/Desktop/VibeWriter/audio_remaster/output/remastered_balanced.m4a";
    "/Users/magnusfremont/Desktop/VibeWriter/audio_remaster/output/remastered_concise.m4a";
    "/Users/magnusfremont/Desktop/VibeWriter/audio_remaster/output/remastered_storytelling.m4a" ].

(** [VISUALIZERS[key]], with [None] for [key not in VISUALIZERS]. *)
Fixpoint lookup (A : Type) (key : string) (d : list (string * A)) : option A :=
  match d with
  | [] => None
  | (k, v) :: d' => if k =? key then Some v else lookup key d'
  end.

(** ** Paths, as [pathlib] computes with them *)

Record path : Type := Path {
  anchor : string;          (* the root of an absolute path, empty otherwise *)
  parts : list string
}.

Definition parent (p : path) : path := Path (anchor p) (removelast (parts p)).

(** [p / name] for a [name] with no slash in it. *)
Definition div (p : path) (name : string) : path :=
  Path (anchor p) (parts p ++ [name])%list.

(** [str(p)]. *)
Definition path_str (p : path) : string :=
  match parts p with
  | [] => if anchor p =? "" then "." else anchor p
  | _ :: _ => anchor p ++ String.concat "/" (parts p)
  end.

(** ** The world of the launcher *)

(** How [subprocess.run] ends: the process completed, it outlived the
    timeout, or the call raised another exception (the executable could not
    be started, for one). *)
Inductive proc_result : Type :=
| Completed (returncode : Z) (stderr : string)
| TimeoutExpired
| Failed (message : string).

Record env : Type := Env {
  script_dir : path;                                  (* Path(__file__).parent *)
  path_exists : string -> bool;                       (* os.path.exists *)
  subprocess_run : list string -> nat -> proc_result  (* the command, the timeout *)
}.

(** What a function of the launcher does to the outside, in order. *)
Inductive event : Type :=
| EPrint (line : string)
| EMkdir (dir : string)
| ERun (cmd : list string) (timeout : nat)
| EWrite (file content : string)
| EChmod (file : string) (mode : nat).

Definition is_run (ev : event) : bool :=
  match ev with ERun _ _ => true | _ => false end.

(** Python's truth value of an optional string: [None] and the empty
    string are false. *)
Definition truthy (o : option string) : bool :=
  match o with
  | Some s => negb (s =? "")
  | None => false
  end.

Definition get_script_path (e : env) : path := script_dir e.

Definition possible_paths : list string :=
  [ "/Applications/Blender.app/Contents/MacOS/Blender";
    "/usr/local/bin/blender";
    "/usr/bin/blender";
    "blender" ].

(** The loop of [get_blender_executable]. *)
Fixpoint first_path (e : env) (paths : list string) : option string :=
  match paths with
  | [] => None
  | p :: rest =>
      if path_exists e p || (p =? "blender") then Some p else first_path e rest
  end.

Definition get_blender_executable (e : env) : option string * list event :=
  match first_path e possible_paths with
  | Some p => (Some p, [])
  | None =>
      (None,
       [EPrint "❌ Blender not found! Please install Blender or add it to your PATH."])
  end.

Definition default_output_dir (e : env) : path :=
  div (parent (get_script_path e)) "output".

(** The command of [run_visualizer]. *)
Definition blender_command (blender_exe : string) (script_path : path) : list string :=
  [blender_exe; "--background"; "--python"; path_str script_path].

Definition run_visualizer (e : env) (visualizer_key : string)
    (audio_file output_dir : option string) : bool * list event :=
  match lookup visualizer_key VISUALIZERS with
  | None => (false, [EPrint ("❌ Unknown visualizer: " ++ visualizer_key)])
  | Some visualizer =>
      let script_path := div (get_script_path e) (script visualizer) in
      if negb (path_exists e (path_str script_path))
      then (false, [EPrint ("❌ Script not found: " ++ path_str script_path)])
      else
        let (blender_exe, probe_log) := get_blender_executable e in
        match blender_exe with
        | None => (false, probe_log)
        | Some exe =>
            if negb (truthy blender_exe) then (false, probe_log) else
            let audio_file :=
              if truthy audio_file then audio_file else nth_error AUDIO_FILES 0 in
            let cmd := blender_command exe script_path in
            let before :=
              (probe_log
               ++ [EPrint ("🚀 Running " ++ name visualizer ++ "...");
                   EPrint ("📄 Description: " ++ description visualizer)]
               ++ (if truthy output_dir then []
                   else [EMkdir (path_str (default_output_dir e))])
               ++ [ERun cmd 300])%list in
            match subprocess_run e cmd 300 with
            | Completed returncode stderr =>
                if (returncode =? 0)%Z
                then (true,
                      (before
                       ++ [EPrint ("✅ " ++ name visualizer ++ " completed successfully!")])%list)
                else (false,
                      (before
                       ++ [EPrint ("❌ " ++ name visualizer ++ " failed:");
                           EPrint stderr])%list)
            | TimeoutExpired =>
                (false,
                 (before
                  ++ [EPrint ("⏰ " ++ name visualizer ++ " timed out (5 minutes)")])%list)
            | Failed message =>
                (false,
                 (before
                  ++ [EPrint ("❌ Error running " ++ name visualizer ++ ": " ++ message)])%list)
            end
        end
  end.

(** One visualizer's lines of the generated shell script. *)
Definition batch_entry (e : env) (blender_exe : string)
    (entry : string * visualizer) : string :=
  let visualizer := snd entry in
  let script_path := div (get_script_path e) (script visualizer) in
  "echo " ++ quote ++ "🎬 Rendering " ++ name visualizer ++ "..." ++ quote ++ newline
  ++ quote ++ blender_exe ++ quote ++ " --background --python "
  ++ quote ++ path_str script_path ++ quote ++ newline
  ++ "if [ $? -eq 0 ]; then" ++ newline
  ++ "    echo " ++ quote ++ "✅ " ++ name visualizer ++ " completed" ++ quote ++ newline
  ++ "else" ++ newline
  ++ "    echo " ++ quote ++ "❌ " ++ name visualizer ++ " failed" ++ quote ++ newline
  ++ "fi" ++ newline ++ newline.

Definition batch_text (e : env) (blender_exe : string) : string :=
  "#!/bin/bash" ++ newline
  ++ "# Auto-generated batch render script" ++ newline
  ++ "# Renders all audio visualizers" ++ newline ++ newline
  ++ "echo " ++ quote ++ "🎨 Starting batch render of "
  ++ str_of_nat (List.length VISUALIZERS) ++ " visualizers..." ++ quote
  ++ newline ++ newline
  ++ String.concat "" (map (batch_entry e blender_exe) VISUALIZERS)
  ++ "echo " ++ quote ++ "🎯 Batch render complete!" ++ quote ++ newline.

Definition create_render_batch (e : env) (audio_file : option string) : list event :=
  let audio_file :=
    if truthy audio_file then audio_file else nth_error AUDIO_FILES 0 in
  let output_dir := default_output_dir e in
  let batch_script := path_str (div (get_script_path e) "render_all_visualizers.sh") in
  let (blender_exe, probe_log) := get_blender_executable e in
  ([EMkdir (path_str output_dir)] ++ probe_log
   ++ match blender_exe with
      | None => []
      | Some exe =>
          if negb (truthy blender_exe) then [] else
          [ EWrite batch_script (batch_text e exe);
            EChmod batch_script 493;
            EPrint ("📝 Created batch render script: " ++ batch_script);
            EPrint ("Run with: " ++ batch_script) ]
      end)%list.

(** ** Notions the properties are stated with *)


(** The processes a function started, in order. *)
Definition runs (evs : list event) : list event := filter is_run evs.




(** ** Concrete worlds the properties are exercised on *)

Definition scripts_dir : path := Path "/" ["opt"; "inkra"; "blender"; "scripts"].

Definition fluid_script : string :=
  "/opt/inkra/blender/scripts/fluid_audio_visualizer.py".




End MasterVisualizer.

(* ================================================================== *)
(** * master_visualizer_generator.py: the listing, the batch run and [main] *)
(* ================================================================== *)

Module MasterVisualizerMain.
Import MasterVisualizer.

Local Open Scope string_scope.

(** [s * n]. *)
Fixpoint times (s : string) (n : nat) : string :=
  match n with
  | O => ""
  | S n' => s ++ times s n'
  end.

(** The loop of [list_visualizers], [i] being the number of the entry. *)
Fixpoint list_entries (i : nat) (d : list (string * visualizer)) : list event :=
  match d with
  | [] => []
  | (viz_key, visualizer) :: d' =>
      List.app
        [ EPrint (str_of_nat i ++ ". " ++ name visualizer);
          EPrint ("   Key: " ++ viz_key);
          EPrint ("   Description: " ++ description visualizer);
          EPrint "" ]
        (list_entries (S i) d')
  end.

Definition list_visualizers : list event :=
  List.app
    [ EPrint "🎨 AVAILABLE CUTTING-EDGE VISUALIZERS";
      EPrint (times "=" 50) ]
    (list_entries 1 VISUALIZERS).

(** [results[key] = success]: the value of a key already there is
    replaced, a new key goes last. *)
Fixpoint dict_set (results : list (string * bool)) (key : string) (success : bool)
  : list (string * bool) :=
  match results with
  | [] => [(key, success)]
  | (k, b) :: rest =>
      if k =? key then (k, success) :: rest else (k, b) :: dict_set rest key success
  end.

(** The first loop of [run_all_visualizers]: every visualizer is run, whatever
    became of the ones before it. *)
Fixpoint process_all (e : env) (d : list (string * visualizer))
    (results : list (string * bool)) : list (string * bool) * list event :=
  match d with
  | [] => (results, [])
  | (viz_key, _) :: d' =>
      let (success, log) := run_visualizer e viz_key None None in
      let (results', log') := process_all e d' (dict_set results viz_key success) in
      (results',
       List.app (EPrint ("🎬 Processing " ++ viz_key ++ "...") :: log)
                (EPrint "" :: log'))
  end.

(** The line of one visualizer in the summary.  The keys of [results] are
    keys of the registry, so [VISUALIZERS[viz_key]] is always there. *)
Definition summary_line (entry : string * bool) : event :=
  let (viz_key, success) := entry in
  let status := if success then "✅ SUCCESS" else "❌ FAILED" in
  EPrint (match lookup viz_key VISUALIZERS with
          | Some visualizer => name visualizer
          | None => ""
          end ++ ": " ++ status).

Definition successes (results : list (string * bool)) : nat :=
  List.length (filter (fun entry => snd entry) results).

Definition run_all_visualizers (e : env) : list event :=
  let (results, log) := process_all e VISUALIZERS [] in
  let successful := successes results in
  let total := List.length results in
  List.app
    [ EPrint "🎨 MASTER AUDIO VISUALIZER GENERATOR";
      EPrint (times "=" 50);
      EPrint ("Found " ++ str_of_nat (List.length VISUALIZERS)
              ++ " cutting-edge visualizers");
      EPrint ("Found " ++ str_of_nat (List.length AUDIO_FILES)
              ++ " remastered audio files");
      EPrint "" ]
    (List.app log
       (List.app
          [ EPrint "📊 RESULTS SUMMARY"; EPrint (times "=" 30) ]
          (List.app (map summary_line results)
             [ EPrint (newline ++ "🎯 Overall: " ++ str_of_nat successful ++ "/"
                       ++ str_of_nat total
                       ++ " visualizers completed successfully") ]))).

Section Main.

(** What [interactive_menu] does: the loop that reads choices from the
    terminal is not part of this development, and [main] is parametric in
    it. *)
Variable interactive_menu : env -> list event.

(** [main], [argv] being [sys.argv]. *)
Definition main (e : env) (argv : list string) : list event :=
  match argv with
  | _ :: command :: rest =>
      if command =? "list" then list_visualizers
      else if command =? "all" then run_all_visualizers e
      else if command =? "batch" then create_render_batch e None
      else match lookup command VISUALIZERS with
           | Some _ =>
               let audio_file :=
                 match rest with a :: _ => Some a | [] => None end in
               snd (run_visualizer e command audio_file None)
           | None =>
               [ EPrint ("❌ Unknown command: " ++ command);
                 EPrint "Available commands: list, all, batch, or visualizer key" ]
           end
  | _ => interactive_menu e
  end.

End Main.

(** ** Notions the properties are stated with *)

Definition is_write (ev : event) : bool :=
  match ev with EWrite _ _ | EChmod _ _ | EMkdir _ => true | _ => false end.

(** [piece] is a part of [whole]. *)
Definition part_of (piece whole : string) : Prop :=
  exists before after, whole = before ++ piece ++ after.



(** Blender under /usr/bin; the scripts of two visualizers are there, one of
    them fails. *)
Definition two_scripts_env : env :=
  Env scripts_dir
    (fun p => (p =? fluid_script)
              || (p =? "/opt/inkra/blender/scripts/organic_growth_visualizer.py")
              || (p =? "/usr/bin/blender"))
    (fun cmd _ =>
       if existsb (String.eqb fluid_script) cmd
       then Completed 0 ""
       else Completed 1 "Error: Python script failed").

End MasterVisualizerMain.

(* ================================================================== *)
(** * analyze_techniques.py: further notions *)
(* ================================================================== *)

Module AnalyzeTechniquesMore.
Import PyStr Re AnalyzeTechniques.




(** A list made of some of the elements of another, in the same order. *)
Inductive subsequence (A : Type) : list A -> list A -> Prop :=
| sub_nil : subsequence [] []
| sub_skip x l l' : subsequence l l' -> subsequence l (x :: l')
| sub_take x l l' : subsequence l l' -> subsequence (x :: l) (x :: l').

End AnalyzeTechniquesMore.

(* ================================================================== *)
(** * blender/scripts/vtt_to_text.py                                    *)
(* ================================================================== *)

Module VttToText.
Import PyStr Re AnalyzeTechniques.

(** ** Strings *)

(** [s.split(sep)] for a separator of one character: the pieces between
    the separators, empty ones included, so at least one piece.  [cur] is the
    piece being read, reversed. *)
Fixpoint split_on (sep : char) (s : str) (cur : str) : list str :=
  match s with
  | [] => [rev cur]
  | c :: s' =>
      if (c =? sep)%N then rev cur :: split_on sep s' []
      else split_on sep s' (c :: cur)
  end.

(** [p in s]. *)
Fixpoint contains (p s : str) : bool :=
  starts_with p s
  || match s with
     | [] => false
     | _ :: s' => contains p s'
     end.

(** [sep.join(l)]. *)
Fixpoint join (sep : str) (l : list str) : str :=
  match l with
  | [] => []
  | x :: l' =>
      match l' with
      | [] => x
      | _ :: _ => x ++ sep ++ join sep l'
      end
  end.

Definition is_empty (s : str) : bool :=
  match s with [] => true | _ :: _ => false end.

(** [os.path.splitext(p)[0]] for a path with no slash in it, as
    [os.path.basename] returns: what comes before the last dot, and all of
    [p] when there is no dot or nothing but dots before the last one. *)
Fixpoint before_last_dot (s : str) : option str :=
  match s with
  | [] => None
  | c :: s' =>
      match before_last_dot s' with
      | Some root => Some (c :: root)
      | None => if (c =? 46)%N then Some [] else None
      end
  end.

Definition splitext_root (p : str) : str :=
  match before_last_dot p with
  | Some root => if forallb (fun c => (c =? 46)%N) root then p else root
  | None => p
  end.

(** ** Substitution *)

Section Cleaning.

(** The two tables of the interpreter that the script consults outside
    ASCII: the decimal digits of the pattern matcher, and the characters
    [str.isdigit] accepts. *)
Variable unicode_decimal : char -> bool.
Variable unicode_digit : char -> bool.

(** [re.sub(r, repl, s)] for a replacement with no group reference: the
    matches are those [re.findall] finds, each replaced by [repl], the
    characters between them kept.  [skip] counts the characters of the last
    match still to be passed over. *)
Fixpoint sub_from (r : regex) (repl : str) (s : str) (skip : nat) : str :=
  match skip with
  | S n => match s with [] => [] | _ :: s' => sub_from r repl s' n end
  | O =>
      let drop n := match s with [] => [] | _ :: s' => sub_from r repl s' n end in
      let keep := match s with [] => [] | c :: s' => c :: sub_from r repl s' 0 end in
      match match_at unicode_decimal r s false with
      | Some (O, _) =>
          repl ++ match match_at unicode_decimal r s true with
                  | Some (n, _) => repl ++ drop (n - 1)
                  | None => keep
                  end
      | Some (S n, _) => repl ++ drop n
      | None => keep
      end
  end.

Definition sub (r : regex) (repl : str) (s : str) : str := sub_from r repl s 0.

(** [<[^>]+>].  The pattern has no letter, so that it is matched without
    IGNORECASE makes no difference: no character folds to one of its two. *)
Definition tag : regex :=
  cat [ RSet (CChar (chr "<")); plus (CNot (CChar (chr ">")));
        RSet (CChar (chr ">")) ].

(** [str.isdigit]: at least one character, and digits only. *)
Definition isdigit_char (c : char) : bool :=
  ((48 <=? c) && (c <=? 57))%N || unicode_digit c.

Definition isdigit (s : str) : bool :=
  negb (is_empty s) && forallb isdigit_char s.

(** ** [clean_vtt_text] *)

(** The test that makes the loop go on to the next line. *)
Definition skipped (line : str) : bool :=
  starts_with (lit "WEBVTT") line
  || starts_with (lit "NOTE") line
  || contains (lit "-->") line
  || isdigit line
  || is_empty line.

(** The three entities are patterns of literal characters, matched with no
    flag: [re.sub] replaces their occurrences from the left as
    [str.replace] does. *)
Definition unescape (line : str) : str :=
  let line := replace (lit "&amp;") (lit "&") line in
  let line := replace (lit "&lt;") (lit "<") line in
  replace (lit "&gt;") (lit ">") line.

(** The body of the loop: [text_lines] after one more line. *)
Definition clean_line (text_lines : list str) (line : str) : list str :=
  let line := strip line in
  if skipped line then text_lines
  else
    let line := sub tag [] line in
    let line := unescape line in
    if negb (is_empty line) && negb (starts_with (lit "align:") line)
    then text_lines ++ [line]
    else text_lines.

Definition clean_vtt_text (vtt_content : str) : str :=
  let lines := split_on 10%N vtt_content [] in
  let text_lines := fold_left clean_line lines [] in
  join (lit " ") text_lines.

(** ** [main] *)

(** The script's inputs: what [glob.glob] returns, and for each path the
    text [open(...).read()] yields, or [None] when the file cannot be
    read. *)
Record vtt_env : Type := VttEnv {
  vtt_files : list str;
  read_vtt : str -> option str
}.

Definition open_vtt (e : vtt_env) (path : str) : M str :=
  fun w => match read_vtt e path with
           | Some text => (inl text, w)
           | None => (inr (OpenFailed path), w)
           end.

Definition base_name (vtt_file : str) : str :=
  replace (lit ".en") [] (splitext_root (basename vtt_file)).

Definition output_file (vtt_file : str) : str :=
  lit "blender/tutorials/" ++ base_name vtt_file ++ lit "_transcript.txt".

Fixpoint convert (e : vtt_env) (files : list str) : M unit :=
  match files with
  | [] => ret tt
  | vtt_file :: rest =>
      print (lit "Processing: " ++ vtt_file) ;;;
      vtt_content <- open_vtt e vtt_file ;;
      let clean_text := clean_vtt_text vtt_content in
      open_write (output_file vtt_file) clean_text ;;;
      print (lit "Saved to: " ++ output_file vtt_file) ;;;
      convert e rest
  end.

Definition main (e : vtt_env) : M unit := convert e (vtt_files e).

Definition run_main (e : vtt_env) : (unit + exn) * world :=
  main e (World [] []).

(** ** Notions the properties are stated with *)

(** What one line adds to [text_lines]. *)
Definition kept (line : str) : list str := clean_line [] line.

(** Two cleaned texts put together as [join] does: an empty one adds
    nothing, not even the blank between. *)
Definition glue (a b : str) : str :=
  match a, b with
  | [], _ => b
  | _, [] => a
  | _, _ => a ++ lit " " ++ b
  end.

Definition vtt_content_of (e : vtt_env) (path : str) : str :=
  match read_vtt e path with Some text => text | None => [] end.

(** What [main] prints and writes for one file that it can read. *)
Definition printed (vtt_file : str) : list str :=
  [ lit "Processing: " ++ vtt_file; lit "Saved to: " ++ output_file vtt_file ].

Definition saved (e : vtt_env) (vtt_file : str) : str * str :=
  (output_file vtt_file, clean_vtt_text (vtt_content_of e vtt_file)).

End Cleaning.

(** The name [p] of a subtitle file before its extensions, when it is an
    ordinary one: a name with no slash, not made of dots only, and in which
    neither of the two texts occurs that the scripts take out of a name. *)
Definition plain_name (p : str) : Prop :=
  ~ In (chr "/") p
  /\ (exists c, In c p /\ c <> chr ".")
  /\ contains (lit ".en") p = false
  /\ contains (lit "_transcript.txt") p = false.

(** ** Concrete inputs the properties are exercised on *)

Definition no_digits (c : char) : bool := false.

Definition cue_text : str :=
  lit "WEBVTT" ++ nl ++ nl
  ++ lit "1" ++ nl
  ++ lit "00:00:01.000 --> 00:00:04.000" ++ nl
  ++ lit "<c.yellow>Add a</c> Sound &amp; Vision input" ++ nl.

Definition vtt_a : str := lit "blender/tutorials/intro.en.vtt".
Definition vtt_b : str := lit "blender/tutorials/intro.vtt".

(** Two subtitle files, both readable. *)
Definition vtt_batch : vtt_env :=
  VttEnv [vtt_a; vtt_b]
    (fun p => if PyStr.eqb p vtt_a then Some cue_text
              else if PyStr.eqb p vtt_b then Some (lit "Then bake sound")
              else None).


End VttToText.

Unset Implicit Arguments.

Arguments AnalyzeTechniques.extract_techniques : simpl never.
Arguments AnalyzeTechniques.extract_steps : simpl never.
Arguments AnalyzeTechniques.summarize : simpl never.
Arguments AnalyzeTechniques.count_all : simpl never.
Arguments AnalyzeTechniques.render : simpl never.

(* ================================================================== *)
(** * Facts about lists, dictionaries and sorting *)
(* ================================================================== *)

Section ListFacts.

Variables (K V : Type).

Lemma nodup_keys_functional (l : list (K * V)) (k : K) (a b : V) :
  NoDup (map fst l) -> In (k, a) l -> In (k, b) l -> a = b.
Proof.
  induction l as [|[k' v] l IH]; simpl; intros ND Ha Hb; [contradiction|].
  inversion ND as [|? ? Hnot ND']; subst.
  destruct Ha as [Ha|Ha], Hb as [Hb|Hb].
  - congruence.
  - inversion Ha; subst. exfalso. apply Hnot.
    change k with (fst (k, b)). now apply in_map.
  - inversion Hb; subst. exfalso. apply Hnot.
    change k with (fst (k, a)). now apply in_map.
  - now apply IH.
Qed.

End ListFacts.

Section SortFacts.
Import AnalyzeTechniques.

Variables (A : Type) (key : A -> nat).







End SortFacts.

(* ================================================================== *)
(** * The matcher finds the occurrences of a pattern *)
(* ================================================================== *)

Section MatcherFacts.
Import PyStr Re.

Variable nd : char -> bool.

Lemma rep_match_sound (A : Type) (cs : cset) (s : str) :
  forall (lo : nat) (hi : option nat) (cap : option str) (k : cont A) (x : A),
    rep_match nd cs lo hi s cap k = Some x ->
    exists w s',
      s = w ++ s'
      /\ lang nd (RRep cs lo hi) w
      /\ k s' cap = Some x.
Proof.
  induction s as [|c s IH]; intros lo hi cap k x H.
  - simpl in H. destruct lo; [|discriminate].
    exists [], []. repeat split; [|assumption].
    constructor; simpl; [constructor|lia|intros; lia].
  - assert (Hstop : match lo with O => k (c :: s) cap | S _ => None end = Some x ->
                    exists w s', c :: s = w ++ s'
                                 /\ lang nd (RRep cs lo hi) w /\ k s' cap = Some x).
    { destruct lo; [|discriminate]. intros Hk.
      exists [], (c :: s). repeat split; [|assumption].
      constructor; simpl; [constructor|lia|intros; lia]. }
    simpl in H.
    destruct (cset_mem nd cs c && may_repeat hi) eqn:E; [|now apply Hstop].
    apply andb_true_iff in E as [Ec Eh].
    destruct (rep_match nd cs (pred lo) (option_map pred hi) s cap k) as [y|] eqn:R;
      [|now apply Hstop].
    inversion H; subst y.
    destruct (IH _ _ _ _ _ R) as (w & s' & -> & Hw & Hk).
    exists (c :: w), s'. repeat split; [|assumption].
    inversion Hw as [| |? ? ? ? Hall Hlo Hhi| | | |]; subst.
    constructor; simpl.
    + now constructor.
    + lia.
    + intros h ->. destruct h as [|h]; [discriminate|].
      specialize (Hhi h eq_refl). lia.
Qed.

Lemma rmatch_sound (A : Type) (r : regex) :
  forall (s : str) (cap : option str) (k : cont A) (x : A),
    rmatch nd r s cap k = Some x ->
    exists w s' cap',
      s = w ++ s' /\ lang nd r w /\ k s' cap' = Some x.
Proof.
  induction r as [|cs|cs lo hi|r1 IH1 r2 IH2|r1 IH1 r2 IH2|r IH];
    intros s cap k x H; simpl in H.
  - exists [], s, cap. repeat split; [constructor|assumption].
  - destruct s as [|c s]; [discriminate|].
    destruct (cset_mem nd cs c) eqn:E; [|discriminate].
    exists [c], s, cap. repeat split; [now constructor|assumption].
  - destruct (rep_match_sound _ _ _ _ _ _ _ _ H) as (w & s' & -> & Hw & Hk).
    now exists w, s', cap.
  - destruct (IH1 _ _ _ _ H) as (w1 & s1 & cap1 & -> & Hw1 & H1).
    destruct (IH2 _ _ _ _ H1) as (w2 & s2 & cap2 & -> & Hw2 & H2).
    exists (w1 ++ w2), s2, cap2. rewrite <- app_assoc.
    repeat split; [now constructor|assumption].
  - destruct (rmatch nd r1 s cap k) as [y|] eqn:R1.
    + inversion H; subst y.
      destruct (IH1 _ _ _ _ R1) as (w & s' & cap' & -> & Hw & Hk).
      exists w, s', cap'. repeat split; [now apply lang_alt_l|assumption].
    + destruct (IH2 _ _ _ _ H) as (w & s' & cap' & -> & Hw & Hk).
      exists w, s', cap'. repeat split; [now apply lang_alt_r|assumption].
  - destruct (IH _ _ _ _ H) as (w & s' & cap' & Hs & Hw & Hk).
    exists w, s'. eexists. repeat split; [exact Hs|now constructor|exact Hk].
Qed.

Lemma rep_match_complete (A : Type) (cs : cset) (s : str) :
  forall (lo : nat) (hi : option nat) (cap : option str) (k : cont A) (w s' : str),
    rep_match nd cs lo hi s cap k = None ->
    s = w ++ s' ->
    lang nd (RRep cs lo hi) w ->
    k s' cap = None.
Proof.
  induction s as [|c s IH]; intros lo hi cap k w s' H Hs Hw;
    inversion Hw as [| |? ? ? ? Hall Hlo Hhi| | | |]; subst.
  - symmetry in Hs. apply app_eq_nil in Hs as [-> ->].
    simpl in *. destruct lo; [assumption|lia].
  - simpl in H. destruct w as [|c' w]; simpl in Hs.
    + subst s'. simpl in Hlo. assert (lo = 0) as -> by lia.
      destruct (cset_mem nd cs c && may_repeat hi); [|assumption].
      destruct (rep_match nd cs (pred 0) (option_map pred hi) s cap k);
        [discriminate|assumption].
    + inversion Hs; subst c' s. inversion Hall as [|? ? Hc Hall']; subst.
      assert (Hrep : may_repeat hi = true).
      { destruct hi as [[|h]|]; try reflexivity.
        specialize (Hhi 0 eq_refl). simpl in Hhi. lia. }
      rewrite Hc, Hrep in H. simpl in H.
      destruct (rep_match nd cs (pred lo) (option_map pred hi) (w ++ s') cap k)
        as [y|] eqn:R; [destruct lo; discriminate|].
      apply (IH _ _ _ _ w s' R eq_refl).
      constructor; [assumption|simpl in Hlo; lia|].
      intros h Hh. destruct hi as [h0|]; [|discriminate].
      simpl in Hh. inversion Hh; subst h.
      specialize (Hhi h0 eq_refl). simpl in Hhi. lia.
Qed.

Lemma rmatch_complete (A : Type) (r : regex) :
  forall (s : str) (cap : option str) (k : cont A) (w s' : str),
    rmatch nd r s cap k = None ->
    s = w ++ s' ->
    lang nd r w ->
    exists cap', k s' cap' = None.
Proof.
  induction r as [|cs|cs lo hi|r1 IH1 r2 IH2|r1 IH1 r2 IH2|r IH];
    intros s cap k w s' H Hs Hw; simpl in H.
  - inversion Hw; subst. now exists cap.
  - inversion Hw; subst. simpl in H.
    match goal with Hc : cset_mem _ _ _ = true |- _ => rewrite Hc in H end.
    now exists cap.
  - exists cap. eapply rep_match_complete; eauto.
  - inversion Hw as [| | |? ? w1 w2 Hw1 Hw2| | |]; subst.
    rewrite <- app_assoc in H.
    destruct (IH1 _ _ _ w1 (w2 ++ s') H eq_refl Hw1) as (cap1 & H1).
    exact (IH2 _ _ _ w2 s' H1 eq_refl Hw2).
  - destruct (rmatch nd r1 s cap k) eqn:R1; [discriminate|].
    inversion Hw; subst.
    + exact (IH1 _ _ _ _ _ R1 eq_refl ltac:(assumption)).
    + exact (IH2 _ _ _ _ _ H eq_refl ltac:(assumption)).
  - inversion Hw; subst.
    destruct (IH _ _ _ _ _ H eq_refl ltac:(assumption)) as (cap' & Hk).
    eexists. exact Hk.
Qed.

(** An attempt that succeeds has matched a word of the pattern, a prefix
    of the text. *)
Lemma match_at_sound (r : regex) (s : str) (adv : bool) (n : nat)
    (cap : option str) :
  match_at nd r s adv = Some (n, cap) ->
  exists w s', s = w ++ s' /\ n = List.length w /\ lang nd r w.
Proof.
  unfold match_at. intros H.
  destruct (rmatch_sound _ _ _ _ _ _ H) as (w & s' & cap' & -> & Hw & Hk).
  exists w, s'. repeat split; [|assumption].
  destruct (adv && (List.length s' =? List.length (w ++ s'))); [discriminate|].
  inversion Hk. rewrite length_app. lia.
Qed.

(** An attempt that fails had no word of the pattern to find there. *)
Lemma match_at_complete (r : regex) (s w s' : str) :
  match_at nd r s false = None ->
  s = w ++ s' -> ~ lang nd r w.
Proof.
  unfold match_at. intros H Hs Hw.
  destruct (rmatch_complete _ _ _ _ _ _ _ H Hs Hw) as (cap' & Hk).
  discriminate Hk.
Qed.

Lemma lang_nullable (r : regex) (w : str) :
  lang nd r w -> w = [] -> nullable r = true.
Proof.
  induction 1 as [|cs c Hc|cs lo hi w Hall Hlo Hhi|r1 r2 w1 w2 H1 IH1 H2 IH2
                 |r1 r2 w H1 IH1|r1 r2 w H2 IH2|r w H1 IH1];
    intros Hnil; simpl.
  - reflexivity.
  - discriminate.
  - subst w. simpl in Hlo. apply Nat.eqb_eq. lia.
  - apply app_eq_nil in Hnil as [-> ->]. now rewrite IH1, IH2.
  - rewrite IH1 by assumption. reflexivity.
  - rewrite IH2 by assumption. apply orb_true_r.
  - now apply IH1.
Qed.

Lemma firstn_length_app (A : Type) (w s : list A) :
  firstn (List.length w) (w ++ s) = w.
Proof. induction w as [|a w IH]; simpl; [reflexivity|now rewrite IH]. Qed.

(** Passing over [skip] characters first. *)
Lemma scan_skip (r : regex) (pre s : str) :
  scan nd r (pre ++ s) (List.length pre) = scan nd r s 0.
Proof.
  induction pre as [|c pre IH]; [reflexivity|]. simpl. exact IH.
Qed.

(** For a pattern without group that cannot match the empty word, the
    matches of [findall] are the occurrences of the pattern read from the
    left. *)
Lemma findall_found (r : regex) (text : str) :
  nullable r = false -> has_group r = false ->
  found nd r text (findall nd r text).
Proof.
  intros Hnull Hgroup. unfold findall.
  remember (List.length text) as n eqn:Hn.
  revert text Hn. induction n as [n IH] using lt_wf_ind. intros text Hn.
  destruct text as [|c s].
  - simpl. destruct (match_at nd r [] false) as [[m cap]|] eqn:M.
    + destruct (match_at_sound _ _ _ _ _ M) as (w & s' & Hs & -> & Hw).
      symmetry in Hs. apply app_eq_nil in Hs as [-> ->].
      apply lang_nullable in Hw; [congruence|reflexivity].
    + constructor.
  - simpl scan. destruct (match_at nd r (c :: s) false) as [[m cap]|] eqn:M.
    + destruct (match_at_sound _ _ _ _ _ M) as (w & s' & Hs & -> & Hw).
      destruct w as [|c' w].
      { apply lang_nullable in Hw; [congruence|reflexivity]. }
      simpl in Hs. inversion Hs; subst c' s.
      change (List.length (c :: w)) with (S (List.length w)). cbv iota beta.
      unfold item. rewrite Hgroup. cbn [fst].
      replace (firstn (S (List.length w)) (c :: w ++ s')) with (c :: w)
        by (symmetry; apply (firstn_length_app _ (c :: w) s')).
      rewrite scan_skip.
      apply (@found_take nd r (c :: w) s'); [assumption|discriminate|].
      apply (IH (List.length s')); [|reflexivity].
      subst n. simpl. rewrite length_app. lia.
    + apply found_pass.
      * intros w rest Hs. now apply (match_at_complete _ _ _ _ M Hs).
      * apply (IH (List.length s)); [subst n; simpl; lia|reflexivity].
Qed.

(** *** The matcher on a few texts *)

(** An empty match is reported, and a non-empty one is then looked for at
    the same place: [re.findall('a*', 'baac')] is ['', 'aa', '', '']. *)
Example findall_empty_matches :
  findall nd (star (CChar (chr "a"))) (lit "baac")
  = [[]; lit "aa"; []; []].
Proof. vm_compute. reflexivity. Qed.

(** Letter case is ignored, blanks are optional, the last letter is taken
    when it is there. *)
Example findall_geometry_nodes :
  findall nd (cat [word "geometry"; star CSpace; word "node"; opt (CChar (chr "s"))])
    (lit "Geometry  Nodes, a geometrynode; geometry nod")
  = [lit "Geometry  Nodes"; lit "geometrynode"].
Proof. vm_compute. reflexivity. Qed.

(** The long s (U+017F) and the Kelvin sign (U+212A) match s and k. *)
Example findall_folds_outside_ascii :
  findall nd (word "sk") [383; 8490]%N = [[383; 8490]%N].
Proof. vm_compute. reflexivity. Qed.

(** The group is what is reported, up to the full stop. *)
Example findall_group :
  findall nd
    (cat [word "then"; plus (CUnion (CChar (chr ",")) CSpace);
          RGroup (plus (CNot (CChar (chr "."))))])
    (lit "Then, bake sound. And then  render it")
  = [lit "bake sound"; lit "render it"].
Proof. vm_compute. reflexivity. Qed.

(** *** The text of the group *)

(** The group handed to the continuation is the one received, or a word of
    one of the groups of the pattern. *)
Lemma rmatch_group (A : Type) (r : regex) :
  forall (s : str) (cap : option str) (k : cont A) (x : A),
    rmatch nd r s cap k = Some x ->
    exists s' cap',
      k s' cap' = Some x
      /\ (cap' = cap
          \/ exists g u, In g (groups r) /\ cap' = Some u /\ lang nd g u).
Proof.
  induction r as [|cs|cs lo hi|r1 IH1 r2 IH2|r1 IH1 r2 IH2|r IH];
    intros s cap k x H; simpl in H.
  - exists s, cap. auto.
  - destruct s as [|c s]; [discriminate|].
    destruct (cset_mem nd cs c); [|discriminate]. exists s, cap. auto.
  - destruct (rep_match_sound _ _ _ _ _ _ _ _ H) as (w & s' & _ & _ & Hk).
    exists s', cap. auto.
  - destruct (IH1 _ _ _ _ H) as (s1 & cap1 & H1 & Hc1).
    destruct (IH2 _ _ _ _ H1) as (s2 & cap2 & H2 & Hc2).
    exists s2, cap2. split; [assumption|]. simpl.
    destruct Hc2 as [->|(g & u & Hg & -> & Hu)].
    + destruct Hc1 as [->|(g & u & Hg & -> & Hu)]; [now left|right].
      exists g, u. auto using in_or_app.
    + right. exists g, u. auto using in_or_app.
  - destruct (rmatch nd r1 s cap k) as [y|] eqn:R1.
    + inversion H; subst y.
      destruct (IH1 _ _ _ _ R1) as (s' & cap' & Hk & Hc).
      exists s', cap'. split; [assumption|]. simpl.
      destruct Hc as [->|(g & u & Hg & -> & Hu)]; [now left|right].
      exists g, u. auto using in_or_app.
    + destruct (IH2 _ _ _ _ H) as (s' & cap' & Hk & Hc).
      exists s', cap'. split; [assumption|]. simpl.
      destruct Hc as [->|(g & u & Hg & -> & Hu)]; [now left|right].
      exists g, u. auto using in_or_app.
  - destruct (rmatch_sound _ _ _ _ _ _ H) as (w & s' & cap' & -> & Hw & Hk).
    rewrite length_app, Nat.add_sub, firstn_length_app in Hk.
    exists s', (Some w). split; [assumption|right].
    exists r, w. simpl. auto.
Qed.

Lemma rmatch_always_group (A : Type) (r : regex) :
  always_groups r = true ->
  forall (s : str) (cap : option str) (k : cont A) (x : A),
    rmatch nd r s cap k = Some x ->
    exists s' g u,
      k s' (Some u) = Some x /\ In g (groups r) /\ lang nd g u.
Proof.
  induction r as [|cs|cs lo hi|r1 IH1 r2 IH2|r1 IH1 r2 IH2|r IH];
    simpl; intros Ha s cap k x H; try discriminate.
  - apply orb_true_iff in Ha as [Ha|Ha].
    + destruct (IH1 Ha _ _ _ _ H) as (s1 & g & u & H1 & Hg & Hu).
      destruct (rmatch_group _ _ _ _ _ _ H1) as (s2 & cap2 & H2 & Hc).
      destruct Hc as [->|(g' & u' & Hg' & -> & Hu')].
      * exists s2, g, u. auto using in_or_app.
      * exists s2, g', u'. auto using in_or_app.
    + destruct (rmatch_group _ _ _ _ _ _ H) as (s1 & cap1 & H1 & _).
      destruct (IH2 Ha _ _ _ _ H1) as (s2 & g & u & H2 & Hg & Hu).
      exists s2, g, u. auto using in_or_app.
  - apply andb_true_iff in Ha as [Ha1 Ha2].
    destruct (rmatch nd r1 s cap k) as [y|] eqn:R1.
    + inversion H; subst y.
      destruct (IH1 Ha1 _ _ _ _ R1) as (s' & g & u & Hk & Hg & Hu).
      exists s', g, u. auto using in_or_app.
    + destruct (IH2 Ha2 _ _ _ _ H) as (s' & g & u & Hk & Hg & Hu).
      exists s', g, u. auto using in_or_app.
  - destruct (rmatch_sound _ _ _ _ _ _ H) as (w & s' & cap' & -> & Hw & Hk).
    rewrite length_app, Nat.add_sub, firstn_length_app in Hk.
    exists s', r, w. auto.
Qed.

(** For a pattern whose matches all go through a group, what [findall]
    reports for a match is a word of one of the groups. *)
Lemma match_at_item (r : regex) (s : str) (adv : bool) (m : nat * option str) :
  has_group r = true -> always_groups r = true ->
  match_at nd r s adv = Some m ->
  exists g, In g (groups r) /\ lang nd g (item r s m).
Proof.
  intros Hg Ha H. unfold match_at in H.
  destruct (rmatch_always_group _ r Ha _ _ _ _ H) as (s' & g & u & Hk & Hin & Hu).
  exists g. split; [assumption|].
  destruct (adv && (List.length s' =? List.length s)); [discriminate|].
  inversion Hk; subst m. unfold item. now rewrite Hg.
Qed.

Lemma scan_items (r : regex) :
  has_group r = true -> always_groups r = true ->
  forall (s : str) (skip : nat) (it : str),
    In it (scan nd r s skip) ->
    exists g, In g (groups r) /\ lang nd g it.
Proof.
  intros Hg Ha.
  assert (Hat : forall s adv m, match_at nd r s adv = Some m ->
                  exists g, In g (groups r) /\ lang nd g (item r s m))
    by (intros s adv m; now apply match_at_item).
  induction s as [|c s IH]; intros skip it Hin.
  - destruct skip as [|skip]; [|contradiction]. simpl in Hin.
    destruct (match_at nd r [] false) as [[[|n] cap]|] eqn:M.
    + destruct Hin as [<-|Hin]; [now apply (Hat _ _ _ M)|].
      destruct (match_at nd r [] true) as [[n' cap']|] eqn:M';
        [|contradiction].
      destruct Hin as [<-|[]]. now apply (Hat _ _ _ M').
    + destruct Hin as [<-|[]]. now apply (Hat _ _ _ M).
    + contradiction.
  - destruct skip as [|skip]; [|now apply (IH skip)]. simpl in Hin.
    destruct (match_at nd r (c :: s) false) as [[[|n] cap]|] eqn:M.
    + destruct Hin as [<-|Hin]; [now apply (Hat _ _ _ M)|].
      destruct (match_at nd r (c :: s) true) as [[n' cap']|] eqn:M'.
      * destruct Hin as [<-|Hin]; [now apply (Hat _ _ _ M')|].
        now apply (IH (n' - 1)).
      * now apply (IH 0).
    + destruct Hin as [<-|Hin]; [now apply (Hat _ _ _ M)|].
      now apply (IH n).
    + now apply (IH 0).
Qed.

End MatcherFacts.

(* ================================================================== *)
(** * The number of occurrences does not depend on the reading *)
(* ================================================================== *)

Section CountingFacts.
Import PyStr Re Counting.

Variable nd : char -> bool.

Ltac split_tests :=
  repeat match goal with
         | |- context [N.leb ?a ?b] => destruct (N.leb_spec a b)
         | |- context [N.eqb ?a ?b] => destruct (N.eqb_spec a b)
         end.

Lemma isspace_cases (c : char) :
  isspace c = true ->
  (c <= 32 \/ c = 133 \/ c = 160 \/ c = 5760 \/ (8192 <= c /\ c <= 8202)
   \/ c = 8232 \/ c = 8233 \/ c = 8239 \/ c = 8287 \/ c = 12288)%N.
Proof.
  unfold isspace. intros H.
  repeat rewrite orb_true_iff in H. repeat rewrite andb_true_iff in H.
  repeat rewrite N.leb_le in H. repeat rewrite N.eqb_eq in H. lia.
Qed.

Lemma space_not_letter (c : char) :
  isspace c = true -> is_lower_ascii (casefold c) = false.
Proof.
  intros H. apply isspace_cases in H.
  assert (Hup : is_upper_ascii c = false).
  { unfold is_upper_ascii. split_tests; simpl; try reflexivity; lia. }
  assert (H1 : (c =? 304)%N = false) by (apply N.eqb_neq; lia).
  assert (H2 : (c =? 305)%N = false) by (apply N.eqb_neq; lia).
  assert (H3 : (c =? 383)%N = false) by (apply N.eqb_neq; lia).
  assert (H4 : (c =? 8490)%N = false) by (apply N.eqb_neq; lia).
  unfold casefold. rewrite Hup, H1, H2, H3, H4. simpl.
  unfold is_lower_ascii. split_tests; simpl; try reflexivity; lia.
Qed.

Lemma casefold_lower (p : char) : is_lower_ascii p = true -> casefold p = p.
Proof.
  unfold is_lower_ascii, casefold, is_upper_ascii. intros H.
  apply andb_true_iff in H as [H1 H2]. apply N.leb_le in H1, H2.
  split_tests; simpl; try reflexivity; lia.
Qed.


Lemma class_mem (cs : cset) (c : char) :
  plain_cset cs = true -> cset_mem nd cs c = true -> cset_sym cs (class c) = true.
Proof.
  destruct cs as [p| | | |]; simpl; try discriminate; intros Hp Hm.
  - apply N.eqb_eq in Hm. rewrite (casefold_lower p Hp) in Hm.
    unfold class. destruct (isspace c) eqn:Es.
    + apply space_not_letter in Es. rewrite Hm, Hp in Es. discriminate.
    + rewrite Hm, Hp. simpl. apply N.eqb_refl.
  - unfold class. now rewrite Hm.
Qed.

Lemma class_in_alphabet (c : char) : In (class c) alphabet.
Proof.
  unfold alphabet, class. apply in_or_app.
  destruct (isspace c); [right; simpl; auto|].
  destruct (is_lower_ascii (casefold c)) eqn:E; [left|right; simpl; auto].
  unfold is_lower_ascii in E. apply andb_true_iff in E as [H1 H2].
  apply N.leb_le in H1, H2. apply in_map_iff.
  exists (N.to_nat (casefold c - 97)). split.
  - f_equal. lia.
  - apply in_seq. lia.
Qed.

Lemma cset_eqb_eq (a b : cset) : cset_eqb a b = true -> a = b.
Proof.
  destruct a, b; simpl; try discriminate; try reflexivity.
  intros H. apply N.eqb_eq in H. now subst.
Qed.

Lemma regex_eqb_eq (a : regex) : forall b, regex_eqb a b = true -> a = b.
Proof.
  induction a as [|cs|cs lo hi|a1 IH1 a2 IH2|a1 IH1 a2 IH2|a IH];
    intros [|cs'|cs' lo' hi'|b1 b2|b1 b2|b]; simpl; try discriminate;
    intros H.
  - reflexivity.
  - now rewrite (cset_eqb_eq _ _ H).
  - apply andb_true_iff in H as [H Hhi]. apply andb_true_iff in H as [Hcs Hlo].
    apply cset_eqb_eq in Hcs. apply Nat.eqb_eq in Hlo. subst.
    destruct hi as [m|], hi' as [n|]; simpl in Hhi; try discriminate;
      [apply Nat.eqb_eq in Hhi; now subst|reflexivity].
  - apply andb_true_iff in H as [H1 H2]. now rewrite (IH1 _ H1), (IH2 _ H2).
  - apply andb_true_iff in H as [H1 H2]. now rewrite (IH1 _ H1), (IH2 _ H2).
Qed.

Lemma inclb_incl (d d' : list regex) : inclb d d' = true -> incl d d'.
Proof.
  unfold inclb. rewrite forallb_forall. intros H r Hr.
  specialize (H r Hr). apply existsb_exists in H as (r' & Hr' & E).
  apply regex_eqb_eq in E. now subst.
Qed.

Lemma covered_incl (d : list regex) (states : list (list regex)) :
  covered d states = true -> exists d', In d' states /\ incl d d'.
Proof.
  unfold covered. intros H. apply existsb_exists in H as (d' & Hd' & E).
  exists d'. split; [assumption|now apply inclb_incl].
Qed.

Lemma pd_plain (x : sym) (r : regex) :
  plain r = true -> forall r', In r' (pd x r) -> plain r' = true.
Proof.
  induction r as [|cs|cs lo hi|a IHa b IHb|a IHa b IHb|a IHa]; simpl;
    intros Hp r' Hin; try discriminate.
  - contradiction.
  - destruct (cset_sym cs x); [|contradiction].
    destruct Hin as [<-|[]]. reflexivity.
  - destruct (cset_sym cs x && may_repeat hi); [|contradiction].
    destruct Hin as [<-|[]]. exact Hp.
  - apply andb_true_iff in Hp as [Ha Hb]. apply in_app_or in Hin as [Hin|Hin].
    + apply in_map_iff in Hin as (a' & <- & Hin). simpl.
      now rewrite (IHa Ha a' Hin), Hb.
    + destruct (nullable a); [now apply IHb|contradiction].
  - apply andb_true_iff in Hp as [Ha Hb]. apply in_app_or in Hin as [Hin|Hin];
      [now apply IHa|now apply IHb].
Qed.

(** A word of the pattern that starts with [c] goes on with a word of one of
    the partial derivatives by the class of [c]. *)
Lemma pd_complete (r : regex) (s : str) :
  lang nd r s ->
  forall c w, s = c :: w -> plain r = true ->
  exists r', In r' (pd (class c) r) /\ lang nd r' w.
Proof.
  induction 1 as [|cs c' Hc|cs lo hi w0 Hall Hlo Hhi|r1 r2 w1 w2 H1 IH1 H2 IH2
                 |r1 r2 w0 H1 IH1|r1 r2 w0 H2 IH2|r0 w0 H1 IH1];
    intros c w Hs Hp; simpl in Hp.
  - discriminate.
  - inversion Hs; subst. simpl. rewrite (class_mem _ _ Hp Hc).
    exists REps. split; [now left|constructor].
  - subst w0. inversion Hall as [|? ? Hc Hall']; subst. simpl.
    rewrite (class_mem _ _ Hp Hc).
    assert (Hrep : may_repeat hi = true).
    { destruct hi as [[|h]|]; try reflexivity.
      specialize (Hhi 0 eq_refl). simpl in Hhi. lia. }
    rewrite Hrep. simpl. eexists. split; [now left|].
    constructor; [assumption|simpl in Hlo; lia|].
    intros h Hh. destruct hi as [h0|]; [|discriminate].
    simpl in Hh. inversion Hh; subst h.
    specialize (Hhi h0 eq_refl). simpl in Hhi. lia.
  - apply andb_true_iff in Hp as [Hp1 Hp2]. simpl.
    destruct w1 as [|c1 w1]; simpl in Hs.
    + destruct (IH2 c w Hs Hp2) as (r' & Hin & Hl).
      exists r'. split; [|assumption]. apply in_or_app. right.
      now rewrite (lang_nullable nd _ _ H1 eq_refl).
    + inversion Hs; subst c1 w.
      destruct (IH1 c w1 eq_refl Hp1) as (r' & Hin & Hl).
      exists (RSeq r' r2). split; [|now constructor].
      apply in_or_app. left. apply in_map_iff. now exists r'.
  - apply andb_true_iff in Hp as [Hp1 Hp2].
    destruct (IH1 c w Hs Hp1) as (r' & Hin & Hl).
    exists r'. simpl. split; [apply in_or_app; now left|assumption].
  - apply andb_true_iff in Hp as [Hp1 Hp2].
    destruct (IH2 c w Hs Hp2) as (r' & Hin & Hl).
    exists r'. simpl. split; [apply in_or_app; now right|assumption].
  - discriminate.
Qed.

Lemma step_plain (x : sym) (d : list regex) : all_plain d -> all_plain (step x d).
Proof.
  intros Hd r Hr. apply in_flat_map in Hr as (r0 & H0 & Hr).
  exact (pd_plain x r0 (Hd r0 H0) r Hr).
Qed.

Lemma step_incl (x : sym) (d d' : list regex) :
  incl d d' -> incl (step x d) (step x d').
Proof.
  intros Hi r Hr. apply in_flat_map in Hr as (r0 & H0 & Hr).
  apply in_flat_map. exists r0. split; [now apply Hi|assumption].
Qed.

Lemma run_snoc (d : list regex) (w : str) (c : char) :
  run d (w ++ [c]) = step (class c) (run d w).
Proof. unfold run. now rewrite fold_left_app. Qed.

Lemma run_plain (w : str) : forall d, all_plain d -> all_plain (run d w).
Proof.
  induction w as [|c w IH]; intros d Hd; [assumption|].
  simpl. apply IH. now apply step_plain.
Qed.

(** What remains of a word of the pattern after a prefix of it is a word of
    the state the prefix leads to. *)
Lemma lang_run (w : str) :
  forall (d : list regex) (r0 : regex) (u : str),
    all_plain d -> In r0 d -> lang nd r0 (w ++ u) ->
    exists r', In r' (run d w) /\ lang nd r' u.
Proof.
  induction w as [|c w IH]; intros d r0 u Hd Hin Hl.
  - now exists r0.
  - simpl in Hl.
    destruct (pd_complete _ _ Hl c (w ++ u) eq_refl (Hd r0 Hin)) as (r1 & H1 & Hl1).
    simpl. apply (IH (step (class c) d) r1 u).
    + now apply step_plain.
    + apply in_flat_map. now exists r0.
    + assumption.
Qed.

(** The states checked hold every state a text can lead to. *)
Lemma check_reaches (r : regex) (states : list (list regex)) :
  check r states = true ->
  forall w, exists d, In d states /\ incl (run [r] w) d.
Proof.
  unfold check. intros H.
  apply andb_true_iff in H as [H _]. apply andb_true_iff in H as [H Hclosed].
  apply andb_true_iff in H as [_ Hstart].
  rewrite forallb_forall in Hclosed.
  intros w. induction w as [|c w IH] using rev_ind.
  - now apply covered_incl.
  - destruct IH as (d & Hd & Hi). rewrite run_snoc.
    specialize (Hclosed d Hd). rewrite forallb_forall in Hclosed.
    specialize (Hclosed (class c) (class_in_alphabet c)).
    apply covered_incl in Hclosed as (d' & Hd' & Hi').
    exists d'. split; [assumption|].
    intros x Hx. apply Hi'. revert x Hx. now apply step_incl.
Qed.

Lemma accepting_incl (d d' : list regex) :
  incl d d' -> accepting d = true -> accepting d' = true.
Proof.
  unfold accepting. intros Hi H. apply existsb_exists in H as (r & Hr & Hn).
  apply existsb_exists. exists r. split; [now apply Hi|assumption].
Qed.

Lemma is_nil_incl (A : Type) (l l' : list A) :
  incl l l' -> is_nil l' = true -> l = [].
Proof.
  destruct l' as [|a l']; [|discriminate]. intros Hi _.
  destruct l as [|b l]; [reflexivity|]. destruct (Hi b (or_introl eq_refl)).
Qed.

(** For a pattern that passes the check, two words matched at one place
    differ by one last character at most, which starts no word. *)
Lemma unambiguous_spec (r : regex) (w : str) (x : char) (v : str) :
  unambiguous r = true ->
  lang nd r w -> lang nd r (w ++ x :: v) ->
  v = [] /\ forall t, ~ lang nd r (x :: t).
Proof.
  unfold unambiguous. generalize (explore 4000 [[r]] []).
  intros states Hcheck Hw Hwv.
  assert (Hplain : plain r = true).
  { unfold check in Hcheck. now repeat (apply andb_true_iff in Hcheck as [Hcheck _]). }
  assert (Hstart : all_plain [r]) by (intros r0 [<-|[]]; assumption).
  destruct (check_reaches _ _ Hcheck w) as (d & Hd & Hi).
  assert (Hsettled : settled r d = true).
  { unfold check in Hcheck. apply andb_true_iff in Hcheck as [_ Hs].
    rewrite forallb_forall in Hs. now apply Hs. }
  (* the state after [w] is accepting *)
  assert (Hacc : accepting d = true).
  { rewrite <- (app_nil_r w) in Hw.
    destruct (lang_run w [r] r [] Hstart (or_introl eq_refl) Hw) as (r' & Hr' & Hl).
    apply accepting_incl with (d := run [r] w); [assumption|].
    apply existsb_exists. exists r'. split; [assumption|].
    now apply (lang_nullable nd r' []). }
  unfold settled in Hsettled. rewrite Hacc in Hsettled. cbn [negb orb] in Hsettled.
  rewrite forallb_forall in Hsettled.
  specialize (Hsettled (class x) (class_in_alphabet x)). cbv zeta in Hsettled.
  apply andb_true_iff in Hsettled as [Hdead Hfirst].
  rewrite forallb_forall in Hdead.
  (* what remains after [w ++ [x]] *)
  assert (Hwx : lang nd r ((w ++ [x]) ++ v)) by (now rewrite <- app_assoc).
  destruct (lang_run (w ++ [x]) [r] r v Hstart (or_introl eq_refl) Hwx)
    as (r' & Hr' & Hl).
  rewrite run_snoc in Hr'.
  assert (Hi' : incl (step (class x) (run [r] w)) (step (class x) d))
    by (now apply step_incl).
  assert (Hp' : plain r' = true)
    by (exact (step_plain _ _ (run_plain w [r] Hstart) r' Hr')).
  assert (Hv : v = []).
  { destruct v as [|y v]; [reflexivity|exfalso].
    destruct (pd_complete _ _ Hl y v eq_refl Hp') as (r'' & Hr'' & _).
    specialize (Hdead (class y) (class_in_alphabet y)).
    assert (Hnil : step (class y) (step (class x) (run [r] w)) = []).
    { apply (is_nil_incl _ _ (step (class y) (step (class x) d)));
        [now apply step_incl|assumption]. }
    assert (Hin : In r'' (step (class y) (step (class x) (run [r] w)))).
    { apply in_flat_map. now exists r'. }
    rewrite Hnil in Hin. contradiction. }
  split; [assumption|]. subst v.
  intros t Ht.
  assert (Hacc' : accepting (step (class x) d) = true).
  { apply accepting_incl with (d := step (class x) (run [r] w)); [assumption|].
    apply existsb_exists. exists r'. split; [assumption|].
    now apply (lang_nullable nd r' []). }
  rewrite Hacc' in Hfirst. cbn [negb orb] in Hfirst.
  destruct (pd_complete _ _ Ht x t eq_refl Hplain) as (r1 & Hr1 & _).
  destruct (pd (class x) r); [contradiction|discriminate].
Qed.

Lemma found_inv (r : regex) (s : str) (ms : list str) :
  found nd r s ms ->
  (s = [] /\ ms = [])
  \/ (exists c s',
        s = c :: s'
        /\ (forall w rest, s = w ++ rest -> ~ lang nd r w)
        /\ found nd r s' ms)
  \/ (exists w s' ms',
        s = w ++ s' /\ ms = w :: ms'
        /\ lang nd r w /\ w <> [] /\ found nd r s' ms').
Proof.
  destruct 1 as [|c s ms Hno Hf|w s ms Hw Hne Hf].
  - now left.
  - right. left. now exists c, s.
  - right. right. now exists w, s, ms.
Qed.

(** For a pattern that passes the check, every reading of the occurrences
    of the pattern in a text finds the same number of them. *)
Lemma found_count_unique (r : regex) :
  unambiguous r = true ->
  forall (s : str) (ms ms' : list str),
    found nd r s ms -> found nd r s ms' -> List.length ms = List.length ms'.
Proof.
  intros Hun.
  assert (Hspec : forall w x v,
             lang nd r w -> lang nd r (w ++ x :: v) ->
             v = [] /\ forall t, ~ lang nd r (x :: t))
    by (intros w x v; exact (unambiguous_spec r w x v Hun)).
  clear Hun. intros s.
  remember (List.length s) as n eqn:Hn. revert s Hn.
  induction n as [n IH] using lt_wf_ind. intros s Hn ms ms' H1 H2.
  apply found_inv in H1. apply found_inv in H2.
  destruct H1 as [[Hs1 ->]|[(c1 & s1 & Hs1 & Hno1 & Hf1)
                           |(w1 & s1 & m1 & Hs1 & -> & Hw1 & Hne1 & Hf1)]];
  destruct H2 as [[Hs2 ->]|[(c2 & s2 & Hs2 & Hno2 & Hf2)
                           |(w2 & s2 & m2 & Hs2 & -> & Hw2 & Hne2 & Hf2)]].
  - reflexivity.
  - congruence.
  - rewrite Hs1 in Hs2. symmetry in Hs2.
    apply app_eq_nil in Hs2 as [-> _]. congruence.
  - congruence.
  - assert (s2 = s1) as -> by congruence.
    apply (IH (List.length s1)) with (s := s1); auto. subst n s. simpl. lia.
  - elim (Hno1 w2 s2 Hs2 Hw2).
  - rewrite Hs2 in Hs1. symmetry in Hs1.
    apply app_eq_nil in Hs1 as [-> _]. congruence.
  - elim (Hno2 w1 s1 Hs1 Hw1).
  - simpl. f_equal.
    assert (Hlen : forall (w t : str), s = w ++ t -> w <> [] -> List.length t < n).
    { intros w t -> Hne. subst n. rewrite length_app.
      destruct w; [congruence|simpl; lia]. }
    assert (Hsplit : w1 ++ s1 = w2 ++ s2) by congruence.
    apply app_eq_app in Hsplit as (l & [[-> ->]|[-> ->]]).
    + (* the first reading took the longer word *)
      destruct l as [|x v].
      * rewrite app_nil_r in *. simpl in *.
        apply (IH (List.length s1)) with (s := s1); auto.
        apply (Hlen w2 s1); assumption.
      * destruct (Hspec w2 x v Hw2 Hw1) as [-> Hnone].
        apply found_inv in Hf2.
        destruct Hf2 as [[Hs _]|[(c & s' & Hs & _ & Hf2)
                                |(w & s' & m & Hs & _ & Hw & Hne & _)]].
        -- discriminate.
        -- simpl in Hs. inversion Hs; subst c s'.
           apply (IH (List.length s1)) with (s := s1); auto.
           apply (Hlen (w2 ++ [x]) s1); [assumption|].
           destruct w2; discriminate.
        -- destruct w as [|c w]; [congruence|].
           simpl in Hs. inversion Hs; subst c.
           elim (Hnone w Hw).
    + (* the second reading took the longer word *)
      destruct l as [|x v].
      * rewrite app_nil_r in *. simpl in *.
        apply (IH (List.length s2)) with (s := s2); auto.
        apply (Hlen w1 s2); assumption.
      * destruct (Hspec w1 x v Hw1 Hw2) as [-> Hnone].
        apply found_inv in Hf1.
        destruct Hf1 as [[Hs _]|[(c & s' & Hs & _ & Hf1)
                                |(w & s' & m & Hs & _ & Hw & Hne & _)]].
        -- discriminate.
        -- simpl in Hs. inversion Hs; subst c s'.
           apply (IH (List.length s2)) with (s := s2); auto.
           apply (Hlen (w1 ++ [x]) s2); [assumption|].
           destruct w1; discriminate.
        -- destruct w as [|c w]; [congruence|].
           simpl in Hs. inversion Hs; subst c.
           elim (Hnone w Hw).
Qed.

End CountingFacts.

(* ================================================================== *)
(** * Properties of the analyzer *)
(* ================================================================== *)

Section ExtractorFacts.
Import PyStr Re AnalyzeTechniques.

Variable nd : char -> bool.

Lemma str_eqb_eq (a b : str) : PyStr.eqb a b = true <-> a = b.
Proof.
  revert b. induction a as [|x a IH]; intros [|y b]; simpl; split;
    try congruence; try reflexivity.
  - intros H. apply andb_true_iff in H as [H1 H2].
    apply N.eqb_eq in H1. apply IH in H2. congruence.
  - intros H. inversion H; subst. rewrite N.eqb_refl. simpl. now apply IH.
Qed.

Lemma str_eqb_refl (a : str) : PyStr.eqb a a = true.
Proof. now apply str_eqb_eq. Qed.

(** The loop of [extract_techniques] visits the table once, in order, and
    each entry contributes at most one pair. *)
Lemma extract_techniques_loop (text : str) (table : list (str * regex))
    (acc : list (str * nat)) :
  fold_left
    (fun techniques (entry : str * regex) =>
       let (technique, pattern) := entry in
       let matches := findall nd pattern text in
       match matches with
       | [] => techniques
       | _ :: _ => techniques ++ [(technique, List.length matches)]
       end)
    table acc
  = acc ++ flat_map (technique_hit nd text) table.
Proof.
  revert acc. induction table as [|[technique pattern] table IH]; intros acc; simpl.
  - now rewrite app_nil_r.
  - rewrite IH. unfold technique_hit at 2. simpl.
    destruct (findall nd pattern text); simpl; [reflexivity|].
    now rewrite <- app_assoc.
Qed.

Lemma extract_techniques_hits (text : str) :
  extract_techniques nd text = flat_map (technique_hit nd text) patterns.
Proof. unfold extract_techniques. now rewrite extract_techniques_loop. Qed.

Lemma patterns_keys_nodup : NoDup (map fst patterns).
Proof.
  assert (H : forall l : list str,
             (fix nodupb (l : list str) : bool :=
                match l with
                | [] => true
                | x :: l' => negb (existsb (PyStr.eqb x) l') && nodupb l'
                end) l = true -> NoDup l).
  { induction l as [|x l IH]; intros Hb; [constructor|].
    apply andb_true_iff in Hb as [H1 H2]. constructor; [|now apply IH].
    intros Hin. apply negb_true_iff in H1.
    assert (existsb (PyStr.eqb x) l = true); [|congruence].
    apply existsb_exists. exists x. split; [assumption|apply str_eqb_refl]. }
  apply H. vm_compute. reflexivity.
Qed.

Lemma in_technique_hit (text : str) (entry : str * regex) (k : str) (c : nat) :
  In (k, c) (technique_hit nd text entry)
  <-> k = fst entry /\ c = occurrences nd (snd entry) text /\ 0 < c.
Proof.
  unfold technique_hit, occurrences.
  destruct (findall nd (snd entry) text) as [|m ms]; simpl.
  - split; [contradiction|]. intros (_ & -> & H). inversion H.
  - split.
    + intros [H|[]]. inversion H; subst. repeat split. lia.
    + intros (-> & -> & _). now left.
Qed.

(** The pairs [extract_techniques] returns: one for each keyword whose
    pattern occurs, with the number of its occurrences. *)
Lemma in_extract_techniques (text technique : str) (c : nat) :
  In (technique, c) (extract_techniques nd text)
  <-> exists pattern,
        In (technique, pattern) patterns
        /\ c = occurrences nd pattern text /\ 0 < c.
Proof.
  rewrite extract_techniques_hits, in_flat_map. split.
  - intros ([k p] & Hin & Hhit). apply in_technique_hit in Hhit.
    simpl in Hhit. destruct Hhit as (-> & -> & Hpos). now exists p.
  - intros (p & Hin & -> & Hpos). exists (technique, p). split; [assumption|].
    apply in_technique_hit. simpl. auto.
Qed.

(** No pattern of the table has a group or matches the empty word. *)
Lemma patterns_plain (technique : str) (pattern : regex) :
  In (technique, pattern) patterns ->
  nullable pattern = false /\ has_group pattern = false.
Proof.
  intros Hin.
  assert (Hall : forallb (fun entry : str * regex =>
                            negb (nullable (snd entry))
                            && negb (has_group (snd entry))) patterns = true)
    by (vm_compute; reflexivity).
  rewrite forallb_forall in Hall. specialize (Hall _ Hin). simpl in Hall.
  apply andb_true_iff in Hall as [H1 H2].
  now rewrite negb_true_iff in H1, H2.
Qed.

(** ** C1 *)

(** The occurrences of a pattern of the table can be read off a text in
    one number only, the number of matches [findall] returns. *)
Lemma patterns_unambiguous (technique : str) (pattern : regex) :
  In (technique, pattern) patterns -> Counting.unambiguous pattern = true.
Proof.
  intros Hin.
  assert (Hall : forallb (fun entry : str * regex =>
                            Counting.unambiguous (snd entry)) patterns = true)
    by (vm_compute; reflexivity).
  rewrite forallb_forall in Hall. exact (Hall _ Hin).
Qed.

Lemma found_occurrences (text technique : str) (pattern : regex)
    (matches : list str) :
  In (technique, pattern) patterns ->
  found nd pattern text matches ->
  List.length matches = occurrences nd pattern text.
Proof.
  intros Hin Hfound.
  destruct (patterns_plain _ _ Hin) as [Hnull Hgroup].
  apply (found_count_unique nd pattern (patterns_unambiguous _ _ Hin) text).
  - exact Hfound.
  - now apply findall_found.
Qed.

(** C1, as amended.  For every text and every keyword of the table, when the
    keyword's pattern occurs [n] times in the text (the occurrences being
    words of the pattern, letter case ignored, read from the left without
    overlap): if [n] is positive, [extract_techniques] yields the pair
    (keyword, [n]) and no other pair for that keyword; if [n] is zero it
    yields no pair for the keyword at all. *)
Theorem extract_techniques_counts (text technique : str) (pattern : regex)
    (matches : list str) (n : nat) :
  In (technique, pattern) patterns ->
  found nd pattern text matches ->
  List.length matches = n ->
  (0 < n ->
     In (technique, n) (extract_techniques nd text)
     /\ forall c, In (technique, c) (extract_techniques nd text) -> c = n)
  /\ (n = 0 -> forall c, ~ In (technique, c) (extract_techniques nd text)).
Proof.
  intros Hin Hfound Hlen.
  assert (Hocc : occurrences nd pattern text = n)
    by (rewrite <- Hlen; symmetry; exact (found_occurrences _ _ _ _ Hin Hfound)).
  assert (Hany : forall c, In (technique, c) (extract_techniques nd text) ->
                           c = n /\ 0 < n).
  { intros c Hc.
    destruct (proj1 (in_extract_techniques text technique c) Hc)
      as (p & Hp & Hcp & Hpos).
    assert (p = pattern) as ->
      by (exact (nodup_keys_functional _ _ patterns technique p pattern
                   patterns_keys_nodup Hp Hin)).
    split; [congruence|congruence]. }
  split.
  - intros Hpos. split.
    + apply (proj2 (in_extract_techniques text technique n)).
      exists pattern. split; [exact Hin|]. split; [now symmetry|exact Hpos].
    + intros c Hc. exact (proj1 (Hany c Hc)).
  - intros Hn c Hc. destruct (Hany c Hc) as [_ Hpos]. lia.
Qed.

(** ** C2 *)

Lemma extract_steps_loop (text : str) (ps : list regex) (acc : list str) :
  fold_left (fun steps pattern => steps ++ findall nd pattern text) ps acc
  = acc ++ flat_map (fun pattern => findall nd pattern text) ps.
Proof.
  revert acc. induction ps as [|p ps IH]; intros acc; simpl.
  - now rewrite app_nil_r.
  - now rewrite IH, app_assoc.
Qed.

Lemma in_firstn (A : Type) (n : nat) (l : list A) (x : A) :
  In x (firstn n l) -> In x l.
Proof.
  revert l. induction n as [|n IH]; intros [|y l]; simpl; try contradiction.
  intros [H|H]; [now left|right; now apply IH].
Qed.

Lemma step_patterns_group (pattern : regex) :
  In pattern step_patterns ->
  has_group pattern = true /\ always_groups pattern = true
  /\ groups pattern = [plus not_dot].
Proof.
  intros Hin. repeat (destruct Hin as [<-|Hin]; [repeat split|]).
  contradiction.
Qed.

(** The group of the step patterns matches the non-empty runs of
    characters other than the full stop. *)
Lemma lang_fragment (u : str) :
  lang nd (plus not_dot) u -> u <> [] /\ ~ In (chr ".") u.
Proof.
  intros H. inversion H as [| |? ? ? ? Hall Hlo Hhi| | | |]; subst. split.
  - intros ->. simpl in Hlo. lia.
  - intros Hin. rewrite Forall_forall in Hall. specialize (Hall _ Hin).
    discriminate Hall.
Qed.

(** C2.  For every text, [extract_steps] returns at most 10 fragments, each
    of them the group of a match of one of the lead-in patterns: a non-empty
    run of characters with no full stop in it.  The summary of a tutorial
    keeps the first 5 of them, so at most 5, and so does every summary that
    [main] builds. *)
Theorem extract_steps_bounds (transcript_file text : str) :
  List.length (extract_steps nd text) <= 10
  /\ (forall step, In step (extract_steps nd text) ->
        (exists pattern,
           In pattern step_patterns /\ In step (findall nd pattern text))
        /\ step <> [] /\ ~ In (chr ".") step)
  /\ key_steps (summarize nd transcript_file text)
     = firstn 5 (extract_steps nd text)
  /\ List.length (key_steps (summarize nd transcript_file text)) <= 5
  /\ (forall e s, In s (summaries nd e) -> List.length (key_steps s) <= 5).
Proof.
  split; [|split; [|split; [|split]]].
  - unfold extract_steps. apply firstn_le_length.
  - intros step Hstep. unfold extract_steps in Hstep.
    apply in_firstn in Hstep. rewrite extract_steps_loop, app_nil_l in Hstep.
    apply in_flat_map in Hstep as (p & Hp & Hs).
    split; [now exists p|].
    destruct (step_patterns_group p Hp) as (Hg & Ha & Hgroups).
    destruct (scan_items nd p Hg Ha text 0 step Hs) as (g & Hin & Hl).
    rewrite Hgroups in Hin. destruct Hin as [<-|[]].
    now apply lang_fragment.
  - reflexivity.
  - change (key_steps (summarize nd transcript_file text))
      with (firstn 5 (extract_steps nd text)).
    apply firstn_le_length.
  - intros e s Hs. unfold summaries in Hs.
    apply in_map_iff in Hs as (path & <- & _).
    change (key_steps (summarize nd path (content e path)))
      with (firstn 5 (extract_steps nd (content e path))).
    apply firstn_le_length.
Qed.

(** ** C5 *)

Lemma sound_text_techniques :
  extract_techniques nd sound_text
  = [(lit "sound_input", 1); (lit "bake_sound", 1)].
Proof. vm_compute. reflexivity. Qed.

Lemma sound_text_no_drivers (c : nat) :
  ~ In (lit "drivers", c) (extract_techniques nd sound_text).
Proof.
  rewrite sound_text_techniques.
  intros [Hc|[Hc|[]]]; vm_compute in Hc; discriminate Hc.
Qed.

(** C5, as amended.  For the text of the example, [extract_steps] returns
    the two fragments that follow First and Then, and [extract_techniques]
    counts sound_input once and bake_sound once and nothing else: the text
    has no occurrence of the pattern of drivers. *)
Theorem sound_text_example :
  extract_steps nd sound_text
  = [lit "add a Sound input"; lit "bake sound into an F-curve"]
  /\ extract_techniques nd sound_text
     = [(lit "sound_input", 1); (lit "bake_sound", 1)]
  /\ occurrences nd (cat [word "driver"; opt_s]) sound_text = 0
  /\ forall c, ~ In (lit "drivers", c) (extract_techniques nd sound_text).
Proof.
  split; [vm_compute; reflexivity|].
  split; [apply sound_text_techniques|].
  split; [vm_compute; reflexivity|].
  apply sound_text_no_drivers.
Qed.

End ExtractorFacts.

(** C1 as it was stated fails for a keyword that does not occur: the
    pattern of geometry_nodes occurs 0 times in a text without keywords, and
    the pair (geometry_nodes, 0) is not in the result, whatever the table of
    digits. *)
Lemma extract_techniques_zero_counterexample :
  In (PyStr.lit "geometry_nodes",
      Re.cat [Re.word "geometry"; AnalyzeTechniques.ws; Re.word "node";
              AnalyzeTechniques.opt_s])
     AnalyzeTechniques.patterns
  /\ (forall nd,
        Re.found nd
          (Re.cat [Re.word "geometry"; AnalyzeTechniques.ws; Re.word "node";
                   AnalyzeTechniques.opt_s])
          AnalyzeTechniques.plain_text [])
  /\ ~ (exists nd,
          In (PyStr.lit "geometry_nodes", 0)
             (AnalyzeTechniques.extract_techniques nd
                AnalyzeTechniques.plain_text)).
Proof.
  split; [left; reflexivity|].
  split.
  - intros nd.
    assert (Hnone : Re.findall nd
                      (Re.cat [Re.word "geometry"; AnalyzeTechniques.ws;
                               Re.word "node"; AnalyzeTechniques.opt_s])
                      AnalyzeTechniques.plain_text = [])
      by (vm_compute; reflexivity).
    rewrite <- Hnone. apply findall_found; reflexivity.
  - intros [nd H].
    assert (Hnil : AnalyzeTechniques.extract_techniques nd
                     AnalyzeTechniques.plain_text = [])
      by (vm_compute; reflexivity).
    rewrite Hnil in H. exact H.
Qed.

(** C5 as it was stated fails on its third keyword: no pair for drivers
    with a count of at least 1 is returned for the text of the example. *)
Lemma sound_text_drivers_counterexample :
  ~ (exists nd c,
       In (PyStr.lit "drivers", c)
          (AnalyzeTechniques.extract_techniques nd AnalyzeTechniques.sound_text)
       /\ 1 <= c).
Proof.
  intros (nd & c & Hin & _).
  exact (sound_text_no_drivers nd c Hin).
Qed.

(* ================================================================== *)
(** * Properties of the analyzer's [main] *)
(* ================================================================== *)

Section MainFacts.
Import PyStr Re AnalyzeTechniques.

Variable nd : char -> bool.

(** *** The dictionary of all counts *)









(** One turn of the loop. *)
Lemma analyze_cons (e : env) (f : str) (files : list str)
    (all_techniques : list (str * nat)) (tutorial_summaries : list summary)
    (w : world) :
  analyze nd e (f :: files) all_techniques tutorial_summaries w
  = let w' := World (console w ++ [lit "Analyzing: " ++ f]) (written w) in
    match read_text e f with
    | Some text =>
        analyze nd e files
          (count_all all_techniques (techniques (summarize nd f text)))
          (tutorial_summaries ++ [summarize nd f text]) w'
    | None => (inr (OpenFailed f), w')
    end.
Proof.
  cbn [analyze]. unfold bind, print, open_read. cbn [console written].
  destruct (read_text e f); reflexivity.
Qed.


(** When a transcript cannot be read the loop ends with the exception of
    the first such file, and has written nothing. *)
Lemma analyze_unreadable (e : env) (files : list str)
    (all_techniques : list (str * nat)) (tutorial_summaries : list summary)
    (w : world) (path : str) :
  In path files -> read_text e path = None ->
  exists before failing after,
    files = before ++ failing :: after
    /\ (forall p, In p before -> read_text e p <> None)
    /\ read_text e failing = None
    /\ analyze nd e files all_techniques tutorial_summaries w
       = (inr (OpenFailed failing),
          World (console w
                 ++ map (fun p => lit "Analyzing: " ++ p) (before ++ [failing]))
                (written w)).
Proof.
  revert all_techniques tutorial_summaries w.
  induction files as [|f files IH]; intros all sums w Hin Hnone;
    [contradiction|].
  destruct (read_text e f) as [text|] eqn:E.
  - assert (Hin' : In path files) by (destruct Hin; [congruence|assumption]).
    rewrite analyze_cons, E. cbv zeta.
    destruct (IH (count_all all (techniques (summarize nd f text)))
                 (sums ++ [summarize nd f text])
                 (World (console w ++ [lit "Analyzing: " ++ f]) (written w))
                 Hin' Hnone)
      as (before & failing & after & -> & Hb & Hf & Hrun).
    exists (f :: before), failing, after. repeat split; try assumption.
    + intros p [<-|Hp]; [congruence|now apply Hb].
    + rewrite Hrun. simpl. now rewrite <- app_assoc.
  - exists [], f, files. repeat split; try assumption.
    + intros p [].
    + now rewrite analyze_cons, E.
Qed.


(** An exception of the loop is an exception of [main], and nothing is
    done after it. *)
Lemma main_raises (e : env) (x : exn) (w : world) :
  analyze nd e (transcript_files e) [] [] (World [] []) = (inr x, w) ->
  run_main nd e = (inr x, w).
Proof.
  intros Hrun. unfold run_main, main.
  unfold bind at 1. now rewrite Hrun.
Qed.

(** ** C3 *)


(** ** C4 *)


(** ** C6 *)

(** C6.  When a transcript of the batch cannot be opened or read, [main]
    ends with the exception of the first such file: no report is written,
    and nothing is printed but the line announcing each file up to that
    one. *)
Theorem unreadable_file_aborts (e : env) (path : str) :
  In path (transcript_files e) ->
  read_text e path = None ->
  exists before failing after,
    transcript_files e = before ++ failing :: after
    /\ (forall p, In p before -> read_text e p <> None)
    /\ read_text e failing = None
    /\ fst (run_main nd e) = inr (OpenFailed failing)
    /\ written (snd (run_main nd e)) = []
    /\ console (snd (run_main nd e))
       = map (fun p => lit "Analyzing: " ++ p) (before ++ [failing]).
Proof.
  intros Hin Hnone.
  destruct (analyze_unreadable e (transcript_files e) [] [] (World [] [])
              path Hin Hnone)
    as (before & failing & after & Hfiles & Hb & Hf & Hrun).
  exists before, failing, after.
  rewrite (main_raises e _ _ Hrun). simpl.
  repeat split; assumption.
Qed.

End MainFacts.

(** ** The properties on concrete inputs *)

Lemma nodes_text_found :
  Re.found AnalyzeTechniques.ascii_digits_only
    (Re.cat [Re.word "geometry"; AnalyzeTechniques.ws; Re.word "node";
             AnalyzeTechniques.opt_s])
    AnalyzeTechniques.nodes_text
    [PyStr.lit "Geometry Node"; PyStr.lit "GEOMETRY  NODES"].
Proof.
  assert (Hall : Re.findall AnalyzeTechniques.ascii_digits_only
                   (Re.cat [Re.word "geometry"; AnalyzeTechniques.ws;
                            Re.word "node"; AnalyzeTechniques.opt_s])
                   AnalyzeTechniques.nodes_text
                 = [PyStr.lit "Geometry Node"; PyStr.lit "GEOMETRY  NODES"])
    by (vm_compute; reflexivity).
  rewrite <- Hall. apply findall_found; reflexivity.
Defined.

Lemma extract_techniques_counts_witness :
  In (PyStr.lit "geometry_nodes", 2)
     (AnalyzeTechniques.extract_techniques
        AnalyzeTechniques.ascii_digits_only AnalyzeTechniques.nodes_text).
Proof.
  apply (extract_techniques_counts AnalyzeTechniques.ascii_digits_only
           AnalyzeTechniques.nodes_text (PyStr.lit "geometry_nodes") _ _ 2
           (or_introl eq_refl) nodes_text_found eq_refl).
  lia.
Defined.




Lemma unreadable_file_aborts_witness :
  fst (AnalyzeTechniques.run_main AnalyzeTechniques.ascii_digits_only
         AnalyzeTechniques.broken_batch)
  = inr (AnalyzeTechniques.OpenFailed AnalyzeTechniques.path_b)
  /\ AnalyzeTechniques.written
       (snd (AnalyzeTechniques.run_main AnalyzeTechniques.ascii_digits_only
               AnalyzeTechniques.broken_batch)) = [].
Proof.
  destruct (unreadable_file_aborts AnalyzeTechniques.ascii_digits_only
              AnalyzeTechniques.broken_batch AnalyzeTechniques.path_b
              (or_intror (or_introl eq_refl)) eq_refl)
    as (before & failing & after & _ & _ & _ & _ & Hw & _).
  split; [vm_compute; reflexivity|exact Hw].
Defined.

(* ================================================================== *)
(** * Properties of the launcher *)
(* ================================================================== *)

Section LauncherFacts.
Import MasterVisualizer.
Local Open Scope string_scope.












(** ** C7 *)


(** ** C8 *)


(** ** C9 *)


(** ** C10 *)

(** C10.  [run_visualizer] does the same whatever audio file it is given,
    none included: the result, the lines printed and the command of the
    process started are those of any other choice. *)
Theorem run_visualizer_ignores_audio (e : env) (key : string)
    (audio_file audio_file' output_dir : option string) :
  run_visualizer e key audio_file output_dir
  = run_visualizer e key audio_file' output_dir
  /\ runs (snd (run_visualizer e key audio_file output_dir))
     = runs (snd (run_visualizer e key audio_file' output_dir)).
Proof.
  assert (H : run_visualizer e key audio_file output_dir
              = run_visualizer e key audio_file' output_dir).
  { unfold run_visualizer.
    destruct (lookup key VISUALIZERS) as [v|]; [|reflexivity].
    destruct (negb (path_exists e (path_str (div (get_script_path e) (script v)))));
      [reflexivity|].
    destruct (get_blender_executable e) as [[exe|] probe_log]; reflexivity. }
  split; [exact H|now rewrite H].
Qed.

End LauncherFacts.

Section LauncherExamples.
Import MasterVisualizer.
Local Open Scope string_scope.







End LauncherExamples.

(* ================================================================== *)
(** * More properties of the launcher *)
(* ================================================================== *)

Section LauncherMore.
Import MasterVisualizer MasterVisualizerMain.
Local Open Scope string_scope.





(** ** X1 *)


(** ** X2 *)


(** ** X3 *)

(** X3.  [get_blender_executable] returns the first of its candidate
    locations that exists, in the order of the list: every candidate before
    the one returned does not exist, and the one returned exists unless it is
    the bare name blender, which is returned when all else fails. *)
Theorem get_blender_executable_first (e : env) :
  exists before exe after,
    possible_paths = List.app before (exe :: after)
    /\ get_blender_executable e = (Some exe, [])
    /\ (forall p, In p before -> path_exists e p = false)
    /\ (path_exists e exe = true \/ (exe = "blender" /\ after = [])).
Proof.
  unfold get_blender_executable, possible_paths. simpl first_path.
  destruct (path_exists e "/Applications/Blender.app/Contents/MacOS/Blender") eqn:E1.
  { exists [], "/Applications/Blender.app/Contents/MacOS/Blender",
      ["/usr/local/bin/blender"; "/usr/bin/blender"; "blender"].
    simpl. intuition. }
  destruct (path_exists e "/usr/local/bin/blender") eqn:E2.
  { exists ["/Applications/Blender.app/Contents/MacOS/Blender"],
      "/usr/local/bin/blender", ["/usr/bin/blender"; "blender"].
    simpl. intuition; subst; assumption. }
  destruct (path_exists e "/usr/bin/blender") eqn:E3.
  { exists ["/Applications/Blender.app/Contents/MacOS/Blender";
            "/usr/local/bin/blender"],
      "/usr/bin/blender", ["blender"].
    simpl. intuition; subst; assumption. }
  simpl orb. cbv iota. rewrite orb_true_r.
  exists ["/Applications/Blender.app/Contents/MacOS/Blender";
          "/usr/local/bin/blender"; "/usr/bin/blender"],
    "blender", [].
  simpl. intuition; subst; assumption.
Qed.

(** ** X4 *)


Lemma append_nil_r (a : string) : a ++ "" = a.
Proof. induction a as [|x a IH]; simpl; [reflexivity|now rewrite IH]. Qed.

Lemma part_of_refl (a : string) : part_of a a.
Proof. exists "", "". simpl. now rewrite append_nil_r. Qed.






(** ** X5 *)









(** ** X6 *)

Lemma run_visualizer_any_audio (e : env) (key : string)
    (a a' output_dir : option string) :
  run_visualizer e key a output_dir = run_visualizer e key a' output_dir.
Proof.
  unfold run_visualizer.
  destruct (lookup key VISUALIZERS) as [v|]; [|reflexivity].
  destruct (negb (path_exists e (path_str (div (get_script_path e) (script v)))));
    [reflexivity|].
  destruct (get_blender_executable e) as [[exe|] probe_log]; reflexivity.
Qed.

(** X6.  Started with a command, [main] looks at the command only: the
    name of the program, the audio path and anything else after the command
    change nothing of what it does, and the interactive menu is not entered.
    A command that is neither list, all, batch nor a key of the registry
    prints two lines and starts nothing. *)
Theorem main_reads_command_only (menu menu' : env -> list event) (e : env)
    (prog prog' command : string) (rest rest' : list string) :
  main menu e (prog :: command :: rest) = main menu' e (prog' :: command :: rest')
  /\ (command <> "list" -> command <> "all" -> command <> "batch" ->
      lookup command VISUALIZERS = None ->
      main menu e (prog :: command :: rest)
      = [ EPrint ("❌ Unknown command: " ++ command);
          EPrint "Available commands: list, all, batch, or visualizer key" ]).
Proof.
  split.
  - unfold main.
    destruct (command =? "list"); [reflexivity|].
    destruct (command =? "all"); [reflexivity|].
    destruct (command =? "batch"); [reflexivity|].
    destruct (lookup command VISUALIZERS); [|reflexivity].
    apply (f_equal snd). apply run_visualizer_any_audio.
  - intros H1 H2 H3 Hkey. unfold main.
    apply String.eqb_neq in H1, H2, H3. now rewrite H1, H2, H3, Hkey.
Qed.

End LauncherMore.

(* ================================================================== *)
(** * More properties of the analyzer *)
(* ================================================================== *)

Section CaseFacts.
Import PyStr Re Counting AnalyzeTechniques AnalyzeTechniquesMore.

Variable nd : char -> bool.

Lemma casefold_cases (c : char) :
  casefold c = c \/ is_lower_ascii (casefold c) = true.
Proof.
  unfold casefold, is_upper_ascii, is_lower_ascii.
  destruct ((65 <=? c)%N && (c <=? 90)%N) eqn:E.
  - right. apply andb_true_iff in E as [H1 H2]. apply N.leb_le in H1, H2.
    apply andb_true_iff. split; apply N.leb_le; lia.
  - destruct ((c =? 304)%N || (c =? 305)%N); [now right|].
    destruct (c =? 383)%N; [now right|].
    destruct (c =? 8490)%N; [now right|]. now left.
Qed.










(** ** X7 *)


End CaseFacts.


(* ================================================================== *)
(** * More on the analyzer: the shape of a result and the console *)
(* ================================================================== *)

Section AnalyzerMore.
Import PyStr Re AnalyzeTechniques AnalyzeTechniquesMore.

Variable nd : char -> bool.

Lemma subsequence_in (A : Type) (l l' : list A) (x : A) :
  subsequence l l' -> In x l -> In x l'.
Proof.
  induction 1 as [|y l l' Hs IH|y l l' Hs IH]; simpl; intros Hin.
  - contradiction.
  - right. now apply IH.
  - destruct Hin as [->|Hin]; [now left|right; now apply IH].
Qed.

Lemma subsequence_nodup (A : Type) (l l' : list A) :
  subsequence l l' -> NoDup l' -> NoDup l.
Proof.
  induction 1 as [|y l l' Hs IH|y l l' Hs IH]; intros Hd.
  - constructor.
  - inversion Hd; subst. now apply IH.
  - inversion Hd as [|? ? Hnot Hd']; subst. constructor; [|now apply IH].
    intros Hin. apply Hnot. now apply (subsequence_in _ l l').
Qed.

Lemma subsequence_length (A : Type) (l l' : list A) :
  subsequence l l' -> List.length l <= List.length l'.
Proof. induction 1; simpl; lia. Qed.

Lemma hits_subsequence (text : str) (table : list (str * regex)) :
  subsequence (map fst (flat_map (technique_hit nd text) table))
              (map fst table).
Proof.
  induction table as [|[technique pattern] table IH]; simpl; [constructor|].
  unfold technique_hit at 1. cbn [fst snd].
  destruct (findall nd pattern text); simpl; now constructor.
Qed.

(** ** X8 *)

(** X8.  What [extract_techniques] returns is a dictionary in the order of
    its keyword table: its keys are keywords of the table, in the order of the
    table and each at most once, so there are at most 18 pairs; no pair has
    the count 0; and the empty text gives no pair at all. *)
Theorem extract_techniques_shape (text : str) :
  subsequence (map fst (extract_techniques nd text)) (map fst patterns)
  /\ NoDup (map fst (extract_techniques nd text))
  /\ List.length (extract_techniques nd text) <= 18
  /\ (forall technique count,
        In (technique, count) (extract_techniques nd text) -> 1 <= count)
  /\ extract_techniques nd [] = [].
Proof.
  assert (Hsub := hits_subsequence text patterns).
  rewrite <- extract_techniques_hits in Hsub.
  split; [exact Hsub|].
  split; [exact (subsequence_nodup _ _ _ Hsub patterns_keys_nodup)|].
  split.
  { apply subsequence_length in Hsub. now rewrite !length_map in Hsub. }
  split.
  { intros technique count Hin.
    destruct (proj1 (in_extract_techniques nd text technique count) Hin)
      as (pattern & _ & _ & Hpos). exact Hpos. }
  reflexivity.
Qed.

(** *** The first of a stable descending sort *)



(** ** X9 *)


End AnalyzerMore.


(* ================================================================== *)
(** * The subtitle converter                                            *)
(* ================================================================== *)

Section VttFacts.
Import PyStr Re AnalyzeTechniques VttToText.

Variables unicode_decimal unicode_digit : char -> bool.

(** *** Where the characters of a result come from *)

Lemma lstrip_in (s : str) (c : char) : In c (lstrip s) -> In c s.
Proof.
  induction s as [|x s IH]; simpl; [tauto|].
  destruct (isspace x); [right; now apply IH|tauto].
Qed.

Lemma strip_in (s : str) (c : char) : In c (strip s) -> In c s.
Proof.
  unfold strip. intros H.
  apply in_rev in H. apply lstrip_in in H. apply in_rev in H.
  now apply lstrip_in.
Qed.

Lemma split_on_in (sep : char) (s cur line : str) (c : char) :
  ~ In sep cur ->
  In line (split_on sep s cur) -> In c line ->
  c <> sep /\ (In c s \/ In c cur).
Proof.
  revert cur. induction s as [|x s IH]; simpl; intros cur Hcur Hline Hc.
  - destruct Hline as [<-|[]]. apply in_rev in Hc.
    split; [|now right]. intros ->. contradiction.
  - destruct (N.eqb_spec x sep) as [->|Hx].
    + destruct Hline as [<-|Hline].
      * apply in_rev in Hc. split; [|now right]. intros ->. contradiction.
      * destruct (IH [] (fun H => H) Hline Hc) as [Hne [Hin|[]]].
        split; [assumption|]. left. now right.
    + assert (Hcur' : ~ In sep (x :: cur)).
      { intros [->|H]; [now apply Hx|contradiction]. }
      destruct (IH (x :: cur) Hcur' Hline Hc) as [Hne [Hin|[<-|Hin]]];
        (split; [assumption|]); [left; now right|left; now left|now right].
Qed.

Lemma sub_from_in (r : regex) (repl s : str) (skip : nat) (c : char) :
  In c (sub_from unicode_decimal r repl s skip) -> In c s \/ In c repl.
Proof.
  revert skip. induction s as [|x s IH]; intros skip.
  - destruct skip as [|skip]; cbn [sub_from]; [|intros []].
    destruct (match_at unicode_decimal r [] false) as [[[|n] cap]|];
      [destruct (match_at unicode_decimal r [] true) as [[m cap']|]|..];
      intros Hin;
      repeat (apply in_app_or in Hin; destruct Hin as [Hin|Hin]);
      try (now right); destruct Hin.
  - destruct skip as [|skip]; cbn [sub_from].
    + destruct (match_at unicode_decimal r (x :: s) false) as [[[|n] cap]|];
        [destruct (match_at unicode_decimal r (x :: s) true) as [[m cap']|]|..];
        intros Hin;
        repeat (apply in_app_or in Hin; destruct Hin as [Hin|Hin]);
        try (now right);
        try (destruct Hin as [->|Hin]; [left; now left|]);
        (apply IH in Hin; destruct Hin; [left; now right|now right]).
    + intros Hin. apply IH in Hin. destruct Hin; [left; now right|now right].
Qed.

Lemma replace_from_in (old new s : str) (skip : nat) (c : char) :
  In c (replace_from old new s skip) -> In c s \/ In c new.
Proof.
  revert skip. induction s as [|x s IH]; intros skip; cbn [replace_from];
    [intros []|].
  destruct skip as [|skip].
  - destruct (starts_with old (x :: s)); intros Hin.
    + apply in_app_or in Hin. destruct Hin as [Hin|Hin]; [now right|].
      apply IH in Hin. destruct Hin; [left; now right|now right].
    + destruct Hin as [->|Hin]; [left; now left|].
      apply IH in Hin. destruct Hin; [left; now right|now right].
  - intros Hin. apply IH in Hin. destruct Hin; [left; now right|now right].
Qed.

Lemma unescape_in (line : str) (c : char) :
  In c (unescape line) -> In c line \/ In c (lit "&<>").
Proof.
  unfold unescape, replace. intros H.
  apply replace_from_in in H. destruct H as [H|[<-|[]]]; [|right; simpl; tauto].
  apply replace_from_in in H. destruct H as [H|[<-|[]]]; [|right; simpl; tauto].
  apply replace_from_in in H. destruct H as [H|[<-|[]]]; [|right; simpl; tauto].
  now left.
Qed.

Lemma join_in (sep : str) (l : list str) (c : char) :
  In c (join sep l) -> In c sep \/ exists x, In x l /\ In c x.
Proof.
  induction l as [|x l IH]; cbn [join]; [intros []|].
  destruct l as [|y l].
  - intros H. right. exists x. split; [now left|assumption].
  - intros H. apply in_app_or in H. destruct H as [H|H].
    + right. exists x. split; [now left|assumption].
    + apply in_app_or in H. destruct H as [H|H]; [now left|].
      destruct (IH H) as [Hs|(z & Hz & Hc)]; [now left|].
      right. exists z. split; [now right|assumption].
Qed.

(** *** The loop of [clean_vtt_text] *)

Lemma clean_line_kept (text_lines : list str) (line : str) :
  clean_line unicode_decimal unicode_digit text_lines line
  = text_lines ++ kept unicode_decimal unicode_digit line.
Proof.
  unfold kept, clean_line.
  destruct (skipped unicode_digit (strip line)); [now rewrite app_nil_r|].
  destruct (negb _ && negb _); [reflexivity|now rewrite app_nil_r].
Qed.

Lemma clean_loop (lines text_lines : list str) :
  fold_left (clean_line unicode_decimal unicode_digit) lines text_lines
  = text_lines ++ flat_map (kept unicode_decimal unicode_digit) lines.
Proof.
  revert text_lines. induction lines as [|line lines IH]; intros text_lines;
    simpl; [now rewrite app_nil_r|].
  rewrite IH, clean_line_kept. now rewrite <- app_assoc.
Qed.

Lemma clean_vtt_text_kept (vtt_content : str) :
  clean_vtt_text unicode_decimal unicode_digit vtt_content
  = join (lit " ")
      (flat_map (kept unicode_decimal unicode_digit)
         (split_on 10%N vtt_content [])).
Proof. unfold clean_vtt_text. now rewrite clean_loop. Qed.

(** A line that is kept is not empty, and made of characters of the line
    read and of the three that the entities stand for. *)
Lemma kept_line (line text : str) :
  In text (kept unicode_decimal unicode_digit line) ->
  text <> []
  /\ forall c, In c text -> In c line \/ In c (lit "&<>").
Proof.
  unfold kept, clean_line.
  destruct (skipped unicode_digit (strip line)); [intros []|].
  destruct (unescape (sub unicode_decimal tag [] (strip line))) as [|x u] eqn:E;
    [intros []|].
  cbn [is_empty negb andb].
  destruct (negb (starts_with (lit "align:") (x :: u))); [|intros []].
  intros [<-|[]]. split; [discriminate|].
  intros c Hc. rewrite <- E in Hc. apply unescape_in in Hc.
  destruct Hc as [Hc|Hc]; [|now right].
  apply sub_from_in in Hc. destruct Hc as [Hc|[]].
  left. now apply strip_in.
Qed.

(** ** X10 *)

(** X10.  The text [clean_vtt_text] returns is one line: it has no line
    break in it, and each of its characters is a character of the content it
    was given, or a blank, or one of the three characters that the entities
    stand for. *)
Theorem clean_vtt_text_characters (vtt_content : str) :
  Forall (fun c => c <> 10%N /\ (In c vtt_content \/ In c (lit " &<>")))
         (clean_vtt_text unicode_decimal unicode_digit vtt_content).
Proof.
  rewrite Forall_forall. intros c Hc.
  rewrite clean_vtt_text_kept in Hc. apply join_in in Hc.
  destruct Hc as [[<-|[]]|(text & Htext & Hc)].
  { split; [discriminate|]. right. simpl. tauto. }
  apply in_flat_map in Htext. destruct Htext as (line & Hline & Htext).
  destruct (kept_line _ _ Htext) as [_ Hchars].
  destruct (Hchars c Hc) as [Hin|Hin].
  - destruct (split_on_in 10%N vtt_content [] line c (fun H => H) Hline Hin)
      as [Hne [H|[]]].
    split; [assumption|now left].
  - split.
    + simpl in Hin. intros ->.
      destruct Hin as [H|[H|[H|[]]]]; discriminate H.
    + right. simpl in *. tauto.
Qed.

(** *** Content put together *)

Lemma split_on_app (sep : char) (a b cur : str) :
  split_on sep (a ++ sep :: b) cur
  = split_on sep a cur ++ split_on sep b [].
Proof.
  revert cur. induction a as [|x a IH]; intros cur; simpl.
  - now rewrite N.eqb_refl.
  - destruct (x =? sep)%N; [now rewrite IH|apply IH].
Qed.

Lemma join_empty (sep : str) (l : list str) :
  (forall x, In x l -> x <> []) -> join sep l = [] -> l = [].
Proof.
  destruct l as [|x l]; [reflexivity|]. intros Hne H.
  assert (Hx : x <> []) by (apply Hne; now left).
  cbn [join] in H. destruct l; [contradiction|].
  destruct x; [contradiction|discriminate].
Qed.

Lemma join_app (l1 l2 : list str) :
  (forall x, In x l1 -> x <> []) -> (forall x, In x l2 -> x <> []) ->
  join (lit " ") (l1 ++ l2) = glue (join (lit " ") l1) (join (lit " ") l2).
Proof.
  induction l1 as [|x l1 IH]; intros H1 H2.
  - simpl. unfold glue. reflexivity.
  - assert (Hx : x <> []) by (apply H1; now left).
    assert (H1' : forall y, In y l1 -> y <> []) by (intros y Hy; apply H1; now right).
    specialize (IH H1' H2).
    destruct l1 as [|y l1].
    + cbn [List.app join]. destruct l2 as [|z l2].
      * unfold glue. cbn [join]. now destruct x.
      * assert (Hj : join (lit " ") (z :: l2) <> []).
        { intros Hj. apply join_empty in Hj; [discriminate|assumption]. }
        unfold glue. destruct x; [contradiction|].
        destruct (join (lit " ") (z :: l2)); [contradiction|reflexivity].
    + change (join (lit " ") ((x :: y :: l1) ++ l2))
        with (x ++ lit " " ++ join (lit " ") ((y :: l1) ++ l2)).
      rewrite IH.
      change (join (lit " ") (x :: y :: l1))
        with (x ++ lit " " ++ join (lit " ") (y :: l1)).
      assert (Hj : join (lit " ") (y :: l1) <> []).
      { intros Hj. apply join_empty in Hj; [discriminate|assumption]. }
      unfold glue.
      destruct x as [|x0 x]; [contradiction|].
      destruct (join (lit " ") (y :: l1)) as [|j0 j]; [contradiction|].
      cbn [List.app].
      destruct (join (lit " ") l2) as [|k0 k]; [reflexivity|].
      f_equal. rewrite <- !app_assoc. reflexivity.
Qed.

(** ** X11 *)

(** X11.  [clean_vtt_text] works line by line: the text of two contents put
    one after the other with a line break between is the text of the first,
    a blank, and the text of the second; when one of the two texts is empty
    the result is the other alone, with no blank added.  The empty content
    gives the empty text. *)
Theorem clean_vtt_text_concat (a b : str) :
  clean_vtt_text unicode_decimal unicode_digit (a ++ nl ++ b) = glue (clean_vtt_text unicode_decimal unicode_digit a) (clean_vtt_text unicode_decimal unicode_digit b)
  /\ clean_vtt_text unicode_decimal unicode_digit [] = [].
Proof.
  split; [|reflexivity].
  rewrite !clean_vtt_text_kept. unfold nl. cbn [List.app].
  rewrite split_on_app, flat_map_app.
  apply join_app; intros x Hx; apply in_flat_map in Hx;
    destruct Hx as (line & _ & Hx); now destruct (kept_line _ _ Hx).
Qed.

(** *** The loop of [main] *)

Lemma convert_app (e : vtt_env) (before rest : list str) (w : world) :
  (forall f, In f before -> read_vtt e f <> None) ->
  convert unicode_decimal unicode_digit e (before ++ rest) w
  = convert unicode_decimal unicode_digit e rest
      (World (console w ++ flat_map printed before)
             (written w
              ++ map (saved unicode_decimal unicode_digit e) before)).
Proof.
  revert w. induction before as [|f before IH]; intros w Hread.
  - simpl. rewrite !app_nil_r. now destruct w.
  - assert (Hf : read_vtt e f <> None) by (apply Hread; now left).
    destruct (read_vtt e f) as [text|] eqn:E; [|contradiction].
    cbn [List.app convert].
    unfold bind, print, open_vtt, open_write. rewrite E.
    cbn [console written].
    rewrite IH by (intros g Hg; apply Hread; now right).
    cbn [console written flat_map map printed List.app].
    unfold saved at 2, vtt_content_of. rewrite E.
    f_equal. f_equal; rewrite <- !app_assoc; reflexivity.
Qed.

(** ** X12 *)

(** X12.  When every subtitle file can be read, [main] ends without an
    exception, has printed for each file, in the order of the files, that it
    is processed and where it was saved, and has written for each file, in
    that order, its cleaned text under the name of its transcript. *)
Theorem vtt_main_converts (e : vtt_env) :
  (forall f, In f (vtt_files e) -> read_vtt e f <> None) ->
  VttToText.run_main unicode_decimal unicode_digit e
  = (inl tt,
     World (flat_map printed (vtt_files e))
           (map (saved unicode_decimal unicode_digit e) (vtt_files e))).
Proof.
  intros Hread. unfold VttToText.run_main, VttToText.main.
  rewrite <- (app_nil_r (vtt_files e)) at 1.
  now rewrite convert_app.
Qed.

(** ** X13 *)


End VttFacts.

(* ================================================================== *)
(** * The names of the transcripts                                      *)
(* ================================================================== *)

Section NameFacts.
Import PyStr Re AnalyzeTechniques VttToText.

Variable nd : char -> bool.

Lemma starts_with_nth (p s : str) :
  starts_with p s = true ->
  forall i c, nth_error p i = Some c -> nth_error s i = Some c.
Proof.
  revert s. induction p as [|x p IH]; intros s H i c Hi.
  - now destruct i.
  - destruct s as [|y s]; [discriminate|]. simpl in H.
    apply andb_true_iff in H as [Hxy H]. apply N.eqb_eq in Hxy. subst y.
    destruct i as [|i]; [exact Hi|]. simpl in *. now apply (IH s).
Qed.

Lemma starts_with_app (p v t : str) :
  List.length p <= List.length v ->
  starts_with p (v ++ t) = starts_with p v.
Proof.
  revert v. induction p as [|x p IH]; intros v Hlen; [reflexivity|].
  destruct v as [|y v]; simpl in *; [lia|].
  rewrite IH by lia. reflexivity.
Qed.

Lemma contains_cons (old : str) (x : char) (s : str) :
  contains old (x :: s) = false ->
  starts_with old (x :: s) = false /\ contains old s = false.
Proof. cbn [contains]. intros H. now apply orb_false_iff in H. Qed.

(** An occurrence of [old] cannot begin in [p] when [p] has none and what
    follows [p] begins with a character that [old] has at its start only. *)
Lemma starts_with_straddle (old p t : str) (c0 : char) :
  contains old p = false ->
  hd_error t = Some c0 ->
  (forall i, 1 <= i -> nth_error old i <> Some c0) ->
  p <> [] ->
  starts_with old (p ++ t) = false.
Proof.
  intros Hno Ht Hold Hp.
  destruct (starts_with old (p ++ t)) eqn:E; [exfalso|reflexivity].
  destruct (Nat.le_gt_cases (List.length old) (List.length p)) as [Hle|Hgt].
  - rewrite starts_with_app in E by exact Hle.
    destruct p as [|x p]; [contradiction|].
    apply contains_cons in Hno. destruct Hno as [Hno _]. congruence.
  - destruct (nth_error old (List.length p)) as [c|] eqn:Ec.
    + assert (Hn := starts_with_nth _ _ E _ _ Ec).
      rewrite nth_error_app2, Nat.sub_diag in Hn by lia.
      destruct t as [|t0 t]; [discriminate|]. simpl in Hn, Ht.
      apply (Hold (List.length p)).
      * destruct p; [contradiction|simpl; lia].
      * congruence.
    + apply nth_error_None in Ec. lia.
Qed.

Lemma replace_from_prefix (old new p t : str) (c0 : char) :
  contains old p = false ->
  hd_error t = Some c0 ->
  (forall i, 1 <= i -> nth_error old i <> Some c0) ->
  replace_from old new (p ++ t) 0 = p ++ replace_from old new t 0.
Proof.
  intros Hno Ht Hold. induction p as [|x p IH]; [reflexivity|].
  cbn [List.app replace_from].
  change (x :: p ++ t) with ((x :: p) ++ t).
  rewrite (starts_with_straddle old (x :: p) t c0 Hno Ht Hold) by discriminate.
  apply contains_cons in Hno. destruct Hno as [_ Hno].
  now rewrite IH.
Qed.

Lemma replace_from_absent (old new p : str) :
  contains old p = false -> replace_from old new p 0 = p.
Proof.
  induction p as [|x p IH]; intros Hno; [reflexivity|].
  cbn [replace_from]. apply contains_cons in Hno. destruct Hno as [Hs Hno].
  rewrite Hs. now rewrite IH.
Qed.

Lemma basename_from_plain (s cur : str) :
  ~ In (chr "/") s -> basename_from s cur = rev cur ++ s.
Proof.
  revert cur. induction s as [|x s IH]; intros cur Hs; simpl.
  - now rewrite app_nil_r.
  - destruct (N.eqb_spec x 47) as [->|Hx].
    + exfalso. apply Hs. now left.
    + rewrite IH by (intros H; apply Hs; now right).
      simpl. now rewrite <- app_assoc.
Qed.

Lemma before_last_dot_app (p s root : str) :
  before_last_dot s = Some root ->
  before_last_dot (p ++ s) = Some (p ++ root).
Proof.
  intros Hs. induction p as [|x p IH]; [exact Hs|].
  cbn [List.app before_last_dot]. now rewrite IH.
Qed.

Lemma forallb_dot (p : str) (c : char) :
  In c p -> c <> chr "." -> forallb (fun c => (c =? 46)%N) p = false.
Proof.
  intros Hin Hc. destruct (forallb (fun c => (c =? 46)%N) p) eqn:E;
    [|reflexivity].
  rewrite forallb_forall in E. specialize (E c Hin).
  apply N.eqb_eq in E. contradiction.
Qed.

Lemma base_name_plain (p : str) :
  plain_name p ->
  base_name (lit "blender/tutorials/" ++ p ++ lit ".en.vtt") = p
  /\ base_name (lit "blender/tutorials/" ++ p ++ lit ".vtt") = p.
Proof.
  intros (Hslash & (c & Hc & Hdot) & Hen & _).
  assert (Hbase : forall ext, ~ In (chr "/") ext ->
            basename (lit "blender/tutorials/" ++ p ++ ext) = p ++ ext).
  { intros ext Hext.
    change (basename (lit "blender/tutorials/" ++ p ++ ext))
      with (basename_from (p ++ ext) []).
    apply basename_from_plain. intros H. apply in_app_or in H. tauto. }
  unfold base_name. split.
  - rewrite Hbase by (cbv; intuition discriminate).
    unfold splitext_root.
    rewrite (before_last_dot_app p (lit ".en.vtt") (lit ".en") eq_refl).
    rewrite forallb_app. replace (forallb _ (lit ".en")) with false by reflexivity.
    rewrite andb_false_r. unfold replace.
    rewrite (replace_from_prefix _ _ p (lit ".en") (chr ".") Hen eq_refl).
    + simpl. apply app_nil_r.
    + intros [|[|[|[|i]]]] Hi; simpl; try discriminate; lia.
  - rewrite Hbase by (cbv; intuition discriminate).
    unfold splitext_root.
    rewrite (before_last_dot_app p (lit ".vtt") [] eq_refl), app_nil_r.
    rewrite (forallb_dot p c Hc Hdot).
    unfold replace. now apply replace_from_absent.
Qed.

(** ** X14 *)

(** X14.  The two scripts agree on names.  For a subtitle file
    blender/tutorials/NAME.en.vtt, and as well for
    blender/tutorials/NAME.vtt, the converter writes
    blender/tutorials/NAME_transcript.txt, and the title the analyzer gives
    the summary of that transcript is NAME again; NAME being a name with no
    slash, not made of dots only, in which neither .en nor _transcript.txt
    occurs.  So the two subtitle files are written to the same
    transcript. *)
Theorem transcript_name_round_trip (p text : str) :
  plain_name p ->
  output_file (lit "blender/tutorials/" ++ p ++ lit ".en.vtt")
  = lit "blender/tutorials/" ++ p ++ lit "_transcript.txt"
  /\ output_file (lit "blender/tutorials/" ++ p ++ lit ".vtt")
     = lit "blender/tutorials/" ++ p ++ lit "_transcript.txt"
  /\ title (summarize nd
              (lit "blender/tutorials/" ++ p ++ lit "_transcript.txt") text)
     = p.
Proof.
  intros Hp. destruct (base_name_plain p Hp) as [Hen Hvtt].
  unfold output_file. rewrite Hen, Hvtt.
  split; [reflexivity|]. split; [reflexivity|].
  destruct Hp as (Hslash & _ & _ & Htr).
  unfold summarize. cbn [title].
  change (basename (lit "blender/tutorials/" ++ p ++ lit "_transcript.txt"))
    with (basename_from (p ++ lit "_transcript.txt") []).
  rewrite basename_from_plain.
  - unfold replace. cbn [rev List.app].
    rewrite (replace_from_prefix _ _ p (lit "_transcript.txt") (chr "_")
               Htr eq_refl).
    + simpl. apply app_nil_r.
    + intros i Hi. do 16 (destruct i as [|i]; [simpl; try discriminate; lia|]).
      destruct i; discriminate.
  - intros H. apply in_app_or in H. destruct H as [H|H]; [contradiction|].
    revert H. cbv. intuition discriminate.
Qed.

End NameFacts.

(* ================================================================== *)
(** * Tags and entities                                                 *)
(* ================================================================== *)

Section TagFacts.
Import PyStr Re AnalyzeTechniques VttToText.

Variable unicode_decimal : char -> bool.

(** A character of the pattern that is no letter is matched by itself
    only, IGNORECASE or not. *)
Lemma cset_mem_symbol (x c : char) :
  casefold x = x -> is_lower_ascii x = false ->
  cset_mem unicode_decimal (CChar x) c = (c =? x)%N.
Proof.
  intros Hx Hl. cbn [cset_mem]. rewrite Hx.
  destruct (N.eqb_spec c x) as [->|Hne].
  - rewrite Hx. apply N.eqb_refl.
  - apply N.eqb_neq. intros H.
    destruct (casefold_cases c) as [Hc|Hc]; [congruence|].
    rewrite H in Hc. congruence.
Qed.

Lemma cset_mem_lt (c : char) :
  cset_mem unicode_decimal (CChar (chr "<")) c = (c =? 60)%N.
Proof. now apply cset_mem_symbol. Qed.

Lemma cset_mem_not_gt (c : char) :
  cset_mem unicode_decimal (CNot (CChar (chr ">"))) c = negb (c =? 62)%N.
Proof.
  change (cset_mem unicode_decimal (CNot (CChar (chr ">"))) c)
    with (negb (cset_mem unicode_decimal (CChar (chr ">")) c)).
  now rewrite cset_mem_symbol.
Qed.

(** What follows the opening bracket: the longest run of characters up to
    the first closing bracket. *)
Lemma rep_match_to_gt (A : Type) (w b : str) (lo : nat) (cap : option str)
    (k : cont A) (x : A) :
  ~ In (chr ">") w -> lo <= List.length w ->
  k (chr ">" :: b) cap = Some x ->
  rep_match unicode_decimal (CNot (CChar (chr ">"))) lo None
    (w ++ chr ">" :: b) cap k = Some x.
Proof.
  revert lo. induction w as [|c w IH]; intros lo Hw Hlo Hk.
  - cbn [List.app rep_match]. rewrite cset_mem_not_gt.
    change (chr ">" =? 62)%N with true. cbn [negb andb].
    simpl in Hlo. now replace lo with 0 by lia.
  - cbn [List.app rep_match]. rewrite cset_mem_not_gt.
    assert (Hc : (c =? 62)%N = false).
    { apply N.eqb_neq. intros ->. apply Hw. now left. }
    rewrite Hc. cbn [negb andb may_repeat option_map].
    rewrite (IH (pred lo)); [reflexivity| |simpl in Hlo; lia|exact Hk].
    intros H. apply Hw. now right.
Qed.

Lemma rep_match_no_gt (A : Type) (s : str) (lo : nat) (hi : option nat)
    (cap : option str) (k : cont A) :
  (forall u, ~ In (chr ">") u -> k u cap = None) ->
  ~ In (chr ">") s ->
  rep_match unicode_decimal (CNot (CChar (chr ">"))) lo hi s cap k = None.
Proof.
  intros Hk Hs. revert lo hi.
  induction s as [|c s IH]; intros lo hi.
  - cbn [rep_match]. destruct lo; [now apply Hk|reflexivity].
  - cbn [rep_match].
    assert (Hs' : ~ In (chr ">") s) by (intros H; apply Hs; now right).
    rewrite (IH Hs').
    destruct (_ && _); destruct lo; try reflexivity; now apply Hk.
Qed.

(** The three outcomes of an attempt of the pattern. *)
Lemma match_at_tag (w b : str) (adv : bool) :
  w <> [] -> ~ In (chr ">") w ->
  match_at unicode_decimal tag (chr "<" :: w ++ chr ">" :: b) adv
  = Some (S (S (List.length w)), None).
Proof.
  intros Hne Hw. unfold match_at, tag. cbn [cat fold_right rmatch plus].
  rewrite cset_mem_lt. change (chr "<" =? 60)%N with true. cbv iota.
  erewrite rep_match_to_gt; [reflexivity|exact Hw| |].
  - destruct w; [contradiction|simpl; lia].
  - cbn [rmatch]. rewrite cset_mem_symbol by reflexivity.
    rewrite N.eqb_refl.
    assert (Hlen : (List.length b
                    =? List.length (chr "<" :: w ++ chr ">" :: b)) = false).
    { apply Nat.eqb_neq. cbn [List.length]. rewrite length_app.
      cbn [List.length]. lia. }
    rewrite Hlen, andb_false_r. do 2 f_equal.
    cbn [List.length]. rewrite length_app. cbn [List.length]. lia.
Qed.

Lemma match_at_not_lt (s : str) (adv : bool) :
  hd_error s <> Some (chr "<") ->
  match_at unicode_decimal tag s adv = None.
Proof.
  intros Hs. unfold match_at, tag. cbn [cat fold_right rmatch].
  destruct s as [|c s]; [reflexivity|].
  rewrite cset_mem_lt. destruct (N.eqb_spec c 60) as [->|Hc]; [|reflexivity].
  exfalso. now apply Hs.
Qed.

Lemma match_at_unclosed (s : str) (adv : bool) :
  ~ In (chr ">") (tl s) ->
  match_at unicode_decimal tag s adv = None.
Proof.
  intros Hs. unfold match_at, tag. cbn [cat fold_right rmatch plus].
  destruct s as [|c s]; [reflexivity|].
  destruct (cset_mem unicode_decimal (CChar (chr "<")) c); [|reflexivity].
  cbn [tl] in Hs. apply rep_match_no_gt; [|exact Hs].
  intros u Hu. cbn [rmatch]. destruct u as [|x u]; [reflexivity|].
  rewrite cset_mem_symbol by reflexivity.
  destruct (N.eqb_spec x (chr ">")) as [->|Hx]; [|reflexivity].
  exfalso. apply Hu. now left.
Qed.

(** *** What [re.sub] does with the pattern *)

Lemma sub_from_skip (r : regex) (repl pre s : str) :
  sub_from unicode_decimal r repl (pre ++ s) (List.length pre)
  = sub_from unicode_decimal r repl s 0.
Proof. induction pre as [|c pre IH]; [reflexivity|exact IH]. Qed.

Lemma sub_tag_keep (repl : str) (c : char) (s : str) :
  c <> chr "<" \/ ~ In (chr ">") s ->
  sub_from unicode_decimal tag repl (c :: s) 0
  = c :: sub_from unicode_decimal tag repl s 0.
Proof.
  intros H. cbn [sub_from].
  assert (Hm : match_at unicode_decimal tag (c :: s) false = None).
  { destruct H as [H|H].
    - apply match_at_not_lt. cbn [hd_error]. intros E. apply H.
      now inversion E.
    - now apply match_at_unclosed. }
  now rewrite Hm.
Qed.

Lemma sub_tag_prefix (repl a t : str) :
  ~ In (chr "<") a ->
  sub_from unicode_decimal tag repl (a ++ t) 0
  = a ++ sub_from unicode_decimal tag repl t 0.
Proof.
  induction a as [|c a IH]; intros Ha; [reflexivity|].
  cbn [List.app]. rewrite sub_tag_keep.
  - rewrite IH; [reflexivity|]. intros H. apply Ha. now right.
  - left. intros ->. apply Ha. now left.
Qed.

Lemma sub_tag_unclosed (repl s : str) :
  ~ In (chr ">") s -> sub_from unicode_decimal tag repl s 0 = s.
Proof.
  induction s as [|c s IH]; intros Hs; [reflexivity|].
  assert (Hs' : ~ In (chr ">") s) by (intros H; apply Hs; now right).
  rewrite sub_tag_keep by (now right). now rewrite IH.
Qed.

(** ** X15 *)

(** X15.  What the removal of tags does to a line, for a text [a] with no
    opening bracket in it: a tag after [a], an opening bracket, one character
    or more with no closing bracket among them, and a closing bracket, is
    taken out and the removal goes on after it; the two brackets with nothing
    between are no tag and stay; an opening bracket that is not closed stays
    with all that follows it; and [a] itself is left as it is. *)
Theorem sub_tag_removes (a w b : str) :
  ~ In (chr "<") a -> w <> [] -> ~ In (chr ">") w ->
  sub unicode_decimal tag [] (a ++ lit "<" ++ w ++ lit ">" ++ b)
  = a ++ sub unicode_decimal tag [] b
  /\ sub unicode_decimal tag [] (a ++ lit "<>" ++ b)
     = a ++ lit "<>" ++ sub unicode_decimal tag [] b
  /\ sub unicode_decimal tag [] (a ++ lit "<" ++ w) = a ++ lit "<" ++ w
  /\ sub unicode_decimal tag [] a = a.
Proof.
  intros Ha Hne Hw. unfold sub. split; [|split; [|split]].
  - rewrite sub_tag_prefix by exact Ha. f_equal.
    change (lit "<" ++ w ++ lit ">" ++ b) with (chr "<" :: w ++ chr ">" :: b).
    cbn [sub_from]. rewrite (match_at_tag w b false Hne Hw).
    cbn [List.app].
    replace (S (List.length w)) with (List.length (w ++ [chr ">"]))
      by (rewrite length_app; simpl; lia).
    replace (w ++ chr ">" :: b) with ((w ++ [chr ">"]) ++ b)
      by (now rewrite <- app_assoc).
    apply sub_from_skip.
  - rewrite sub_tag_prefix by exact Ha. reflexivity.
  - rewrite sub_tag_prefix by exact Ha. f_equal.
    apply sub_tag_unclosed.
    intros [H|H]; [discriminate H|contradiction].
  - rewrite <- (app_nil_r a) at 1. rewrite sub_tag_prefix by exact Ha.
    cbn [sub_from]. now rewrite match_at_not_lt, app_nil_r by discriminate.
Qed.

End TagFacts.

Section EntityFacts.
Import PyStr Re AnalyzeTechniques VttToText.

Lemma replace_from_no_first (old new p t : str) (x : char) :
  hd_error old = Some x -> ~ In x p ->
  replace_from old new (p ++ t) 0 = p ++ replace_from old new t 0.
Proof.
  intros Hold. induction p as [|c p IH]; intros Hp; [reflexivity|].
  cbn [List.app replace_from].
  destruct old as [|x' old]; [discriminate|]. inversion Hold; subst x'.
  cbn [starts_with].
  assert (Hc : (x =? c)%N = false).
  { apply N.eqb_neq. intros ->. apply Hp. now left. }
  rewrite Hc. cbn [andb]. rewrite IH; [reflexivity|].
  intros H. apply Hp. now right.
Qed.

Lemma starts_with_hd (x : char) (p s : str) :
  hd_error s <> Some x -> starts_with (x :: p) s = false.
Proof.
  destruct s as [|c s]; [reflexivity|]. cbn [hd_error starts_with].
  intros H. destruct (N.eqb_spec x c) as [->|Hne]; [contradiction|reflexivity].
Qed.

Lemma replace_from_hd (old new s : str) (n0 x : char) :
  hd_error new = Some n0 -> n0 <> x -> hd_error s <> Some x ->
  hd_error (replace_from old new s 0) <> Some x.
Proof.
  intros Hnew Hn Hs. destruct s as [|c s]; [exact Hs|].
  cbn [replace_from]. destruct (starts_with old (c :: s)); [|exact Hs].
  destruct new as [|n new]; [discriminate|]. inversion Hnew; subst n.
  cbn [List.app hd_error]. congruence.
Qed.

(** An ampersand that no entity begins with stays. *)
Lemma replace_from_amp (y : char) (old new s : str) :
  hd_error s <> Some y ->
  replace_from (chr "&" :: y :: old) new (chr "&" :: s) 0
  = chr "&" :: replace_from (chr "&" :: y :: old) new s 0.
Proof.
  intros Hs. cbn [replace_from].
  change (starts_with (chr "&" :: y :: old) (chr "&" :: s))
    with ((chr "&" =? chr "&")%N && starts_with (y :: old) s).
  now rewrite starts_with_hd, andb_false_r.
Qed.

(** ** X16 *)

(** X16.  What the three substitutions of entities make of a line, for a
    text [a] with no ampersand in it: [a] is left as it is; the entities of
    the two angle brackets after [a] become the brackets; the entity of the
    ampersand becomes an ampersand, at the end of the line and before a
    character that is neither l nor g; and, the ampersand being decoded
    first, its entity followed by lt; or gt; is decoded a second time, into
    an angle bracket.  In each case the decoding goes on with what
    follows. *)
Theorem unescape_entities (a b : str) (c : char) :
  ~ In (chr "&") a -> c <> chr "l" -> c <> chr "g" ->
  unescape a = a
  /\ unescape (a ++ lit "&lt;" ++ b) = a ++ lit "<" ++ unescape b
  /\ unescape (a ++ lit "&gt;" ++ b) = a ++ lit ">" ++ unescape b
  /\ unescape (a ++ lit "&amp;") = a ++ lit "&"
  /\ unescape (a ++ lit "&amp;" ++ c :: b) = a ++ lit "&" ++ unescape (c :: b)
  /\ unescape (a ++ lit "&amp;lt;" ++ b) = a ++ lit "<" ++ unescape b
  /\ unescape (a ++ lit "&amp;gt;" ++ b) = a ++ lit ">" ++ unescape b.
Proof.
  intros Ha Hl Hg.
  assert (Hpre : forall old new t, hd_error old = Some (chr "&") ->
            replace_from old new (a ++ t) 0 = a ++ replace_from old new t 0).
  { intros old new t Hold. now apply (replace_from_no_first old new a t (chr "&")). }
  assert (Hpre' : forall old new t y, hd_error old = Some (chr "&") ->
            replace_from old new (a ++ y :: t) 0
            = a ++ replace_from old new (y :: t) 0).
  { intros old new t y Hold. now apply Hpre. }
  unfold unescape, replace.
  split; [|split; [|split; [|split; [|split; [|split]]]]].
  - rewrite <- (app_nil_r a) at 1.
    rewrite !Hpre by reflexivity. apply app_nil_r.
  - rewrite Hpre by reflexivity.
    change (replace_from (lit "&amp;") (lit "&") (lit "&lt;" ++ b) 0)
      with (lit "&lt;" ++ replace_from (lit "&amp;") (lit "&") b 0).
    rewrite Hpre by reflexivity.
    set (b1 := replace_from (lit "&amp;") (lit "&") b 0).
    change (replace_from (lit "&lt;") (lit "<") (lit "&lt;" ++ b1) 0)
      with (chr "<" :: replace_from (lit "&lt;") (lit "<") b1 0).
    rewrite Hpre' by reflexivity. reflexivity.
  - rewrite Hpre by reflexivity.
    change (replace_from (lit "&amp;") (lit "&") (lit "&gt;" ++ b) 0)
      with (lit "&gt;" ++ replace_from (lit "&amp;") (lit "&") b 0).
    rewrite Hpre by reflexivity.
    set (b1 := replace_from (lit "&amp;") (lit "&") b 0).
    change (replace_from (lit "&lt;") (lit "<") (lit "&gt;" ++ b1) 0)
      with (lit "&gt;" ++ replace_from (lit "&lt;") (lit "<") b1 0).
    rewrite Hpre by reflexivity. reflexivity.
  - rewrite !Hpre by reflexivity. reflexivity.
  - rewrite Hpre by reflexivity.
    change (replace_from (lit "&amp;") (lit "&") (lit "&amp;" ++ c :: b) 0)
      with (chr "&" :: replace_from (lit "&amp;") (lit "&") (c :: b) 0).
    set (b1 := replace_from (lit "&amp;") (lit "&") (c :: b) 0).
    assert (H1l : hd_error b1 <> Some (chr "l")).
    { apply (replace_from_hd _ _ _ (chr "&")); [reflexivity|discriminate|].
      cbn [hd_error]. congruence. }
    assert (H1g : hd_error b1 <> Some (chr "g")).
    { apply (replace_from_hd _ _ _ (chr "&")); [reflexivity|discriminate|].
      cbn [hd_error]. congruence. }
    rewrite Hpre' by reflexivity.
    change (lit "&lt;") with (chr "&" :: chr "l" :: lit "t;").
    rewrite (replace_from_amp (chr "l") _ _ b1 H1l).
    set (b2 := replace_from (chr "&" :: chr "l" :: lit "t;") (lit "<") b1 0).
    assert (H2g : hd_error b2 <> Some (chr "g")).
    { apply (replace_from_hd _ _ _ (chr "<")); [reflexivity|discriminate|].
      exact H1g. }
    rewrite Hpre' by reflexivity.
    change (lit "&gt;") with (chr "&" :: chr "g" :: lit "t;").
    now rewrite (replace_from_amp (chr "g") _ _ b2 H2g).
  - rewrite Hpre by reflexivity.
    change (replace_from (lit "&amp;") (lit "&") (lit "&amp;lt;" ++ b) 0)
      with (lit "&lt;" ++ replace_from (lit "&amp;") (lit "&") b 0).
    rewrite Hpre by reflexivity.
    set (b1 := replace_from (lit "&amp;") (lit "&") b 0).
    change (replace_from (lit "&lt;") (lit "<") (lit "&lt;" ++ b1) 0)
      with (chr "<" :: replace_from (lit "&lt;") (lit "<") b1 0).
    rewrite Hpre' by reflexivity. reflexivity.
  - rewrite Hpre by reflexivity.
    change (replace_from (lit "&amp;") (lit "&") (lit "&amp;gt;" ++ b) 0)
      with (lit "&gt;" ++ replace_from (lit "&amp;") (lit "&") b 0).
    rewrite Hpre by reflexivity.
    set (b1 := replace_from (lit "&amp;") (lit "&") b 0).
    change (replace_from (lit "&lt;") (lit "<") (lit "&gt;" ++ b1) 0)
      with (lit "&gt;" ++ replace_from (lit "&lt;") (lit "<") b1 0).
    rewrite Hpre by reflexivity. reflexivity.
Qed.

End EntityFacts.

Lemma unescape_entities_witness :
  VttToText.unescape (PyStr.lit "Sound ") = PyStr.lit "Sound "
  /\ VttToText.unescape
       (PyStr.lit "Sound " ++ PyStr.lit "&lt;" ++ PyStr.lit "Vision")
     = PyStr.lit "Sound " ++ PyStr.lit "<"
       ++ VttToText.unescape (PyStr.lit "Vision")
  /\ VttToText.unescape
       (PyStr.lit "Sound " ++ PyStr.lit "&gt;" ++ PyStr.lit "Vision")
     = PyStr.lit "Sound " ++ PyStr.lit ">"
       ++ VttToText.unescape (PyStr.lit "Vision")
  /\ VttToText.unescape (PyStr.lit "Sound " ++ PyStr.lit "&amp;")
     = PyStr.lit "Sound " ++ PyStr.lit "&"
  /\ VttToText.unescape
       (PyStr.lit "Sound " ++ PyStr.lit "&amp;"
        ++ PyStr.chr " " :: PyStr.lit "Vision")
     = PyStr.lit "Sound " ++ PyStr.lit "&"
       ++ VttToText.unescape (PyStr.chr " " :: PyStr.lit "Vision")
  /\ VttToText.unescape
       (PyStr.lit "Sound " ++ PyStr.lit "&amp;lt;" ++ PyStr.lit "Vision")
     = PyStr.lit "Sound " ++ PyStr.lit "<"
       ++ VttToText.unescape (PyStr.lit "Vision")
  /\ VttToText.unescape
       (PyStr.lit "Sound " ++ PyStr.lit "&amp;gt;" ++ PyStr.lit "Vision")
     = PyStr.lit "Sound " ++ PyStr.lit ">"
       ++ VttToText.unescape (PyStr.lit "Vision").
Proof.
  apply (unescape_entities (PyStr.lit "Sound ") (PyStr.lit "Vision")
           (PyStr.chr " ")).
  - cbv. intuition discriminate.
  - discriminate.
  - discriminate.
Defined.

Lemma sub_tag_removes_witness :
  VttToText.sub VttToText.no_digits VttToText.tag []
    (PyStr.lit "Add a " ++ PyStr.lit "<" ++ PyStr.lit "c.yellow"
     ++ PyStr.lit ">" ++ PyStr.lit "Sound</c> input")
  = PyStr.lit "Add a "
    ++ VttToText.sub VttToText.no_digits VttToText.tag []
         (PyStr.lit "Sound</c> input")
  /\ VttToText.sub VttToText.no_digits VttToText.tag []
       (PyStr.lit "Add a " ++ PyStr.lit "<>" ++ PyStr.lit "Sound</c> input")
     = PyStr.lit "Add a " ++ PyStr.lit "<>"
       ++ VttToText.sub VttToText.no_digits VttToText.tag []
            (PyStr.lit "Sound</c> input")
  /\ VttToText.sub VttToText.no_digits VttToText.tag []
       (PyStr.lit "Add a " ++ PyStr.lit "<" ++ PyStr.lit "c.yellow")
     = PyStr.lit "Add a " ++ PyStr.lit "<" ++ PyStr.lit "c.yellow"
  /\ VttToText.sub VttToText.no_digits VttToText.tag [] (PyStr.lit "Add a ")
     = PyStr.lit "Add a ".
Proof.
  apply (sub_tag_removes VttToText.no_digits (PyStr.lit "Add a ")
           (PyStr.lit "c.yellow") (PyStr.lit "Sound</c> input")).
  - cbv. intuition discriminate.
  - discriminate.
  - cbv. intuition discriminate.
Defined.

Lemma vtt_batch_readable (f : PyStr.str) :
  In f (VttToText.vtt_files VttToText.vtt_batch) ->
  VttToText.read_vtt VttToText.vtt_batch f <> None.
Proof. intros [<-|[<-|[]]]; vm_compute; discriminate. Defined.

Lemma vtt_main_converts_witness :
  VttToText.run_main VttToText.no_digits VttToText.no_digits VttToText.vtt_batch
  = (inl tt,
     AnalyzeTechniques.World
       (flat_map VttToText.printed (VttToText.vtt_files VttToText.vtt_batch))
       (map (VttToText.saved VttToText.no_digits VttToText.no_digits
               VttToText.vtt_batch)
            (VttToText.vtt_files VttToText.vtt_batch))).
Proof.
  exact (vtt_main_converts VttToText.no_digits VttToText.no_digits
           VttToText.vtt_batch vtt_batch_readable).
Defined.


Lemma intro_plain_name : VttToText.plain_name (PyStr.lit "intro").
Proof.
  split; [|split; [|split]].
  - cbv. intuition discriminate.
  - exists (PyStr.chr "i"). split; [now left|discriminate].
  - reflexivity.
  - reflexivity.
Defined.

Lemma transcript_name_round_trip_witness :
  VttToText.output_file VttToText.vtt_a
  = PyStr.lit "blender/tutorials/intro_transcript.txt"
  /\ VttToText.output_file VttToText.vtt_b
     = PyStr.lit "blender/tutorials/intro_transcript.txt"
  /\ AnalyzeTechniques.title
       (AnalyzeTechniques.summarize AnalyzeTechniques.ascii_digits_only
          (PyStr.lit "blender/tutorials/intro_transcript.txt")
          AnalyzeTechniques.sound_text)
     = PyStr.lit "intro".
Proof.
  exact (transcript_name_round_trip AnalyzeTechniques.ascii_digits_only
           (PyStr.lit "intro") AnalyzeTechniques.sound_text intro_plain_name).
Defined.
